(** * ripgrepripsed: the region algebra of [src/src/index.ts]

    A shallow embedding of the pipeline of [index.ts]: the coalescer
    [rgLinesToRegions], the parser [parseScript] and the driver [main] with
    its stages.  The external collaborators (the [rg] and [sed] processes
    started through execa, minimatch, the file system read by [readLines]
    and standard input) are parameters of an environment record. *)

From Stdlib Require Import String Ascii ZArith List Lia.
From stdpp Require Import base gmap strings list.
Import ListNotations.

Open Scope Z_scope.

(* ------------------------------------------------------------------ *)
(** ** JavaScript numbers *)

(** A JS number as the code uses it for line numbers: [NaN] or an
    integer.  Integers are exact; this agrees with IEEE-754 doubles on
    every integer of magnitude at most 2^53 (Number.MAX_SAFE_INTEGER + 1),
    which covers every line number ripgrep prints and the sentinel
    [Number.MAX_SAFE_INTEGER]. *)
Inductive jsnum := NaN | Num (z : Z).

(** [a + b] *)
Definition js_add (a b : jsnum) : jsnum :=
  match a, b with Num x, Num y => Num (x + y) | _, _ => NaN end.

(** [a === b]: [NaN] equals nothing, not even itself. *)
Definition js_strict_eq (a b : jsnum) : bool :=
  match a, b with Num x, Num y => Z.eqb x y | _, _ => false end.

(** [a <= b]: false as soon as one side is [NaN]. *)
Definition js_le (a b : jsnum) : bool :=
  match a, b with Num x, Num y => Z.leb x y | _, _ => false end.

(** [a >= b] *)
Definition js_ge (a b : jsnum) : bool := js_le b a.

(** [a < b] *)
Definition js_lt (a b : jsnum) : bool :=
  match a, b with Num x, Num y => Z.ltb x y | _, _ => false end.

(** [Number.MAX_SAFE_INTEGER] = 2^53 - 1. *)
Definition MAX_SAFE_INTEGER : Z := 2 ^ 53 - 1.

(* ------------------------------------------------------------------ *)
(** ** JavaScript string operations *)

(** The white space removed by [String.prototype.trim] (ASCII part). *)
Definition is_js_space (a : ascii) : bool :=
  let n := nat_of_ascii a in
  (Nat.eqb n 32 || Nat.eqb n 9 || Nat.eqb n 10 || Nat.eqb n 11
   || Nat.eqb n 12 || Nat.eqb n 13)%bool.

Fixpoint drop_space (l : list ascii) : list ascii :=
  match l with
  | [] => []
  | a :: l' => if is_js_space a then drop_space l' else l
  end.

(** [s.trim()] *)
Definition js_trim (s : string) : string :=
  string_of_list_ascii
    (rev (drop_space (rev (drop_space (list_ascii_of_string s))))).

Definition digit_val (a : ascii) : option Z :=
  let n := nat_of_ascii a in
  if (Nat.leb 48 n && Nat.leb n 57)%bool then Some (Z.of_nat (n - 48))
  else None.

Fixpoint parse_digits (acc : Z) (l : list ascii) : option Z :=
  match l with
  | [] => Some acc
  | a :: l' =>
      match digit_val a with
      | Some d => parse_digits (acc * 10 + d) l'
      | None => None
      end
  end.

Definition decimal_literal (l : list ascii) : jsnum :=
  match l with
  | [] => NaN
  | _ => match parse_digits 0 l with Some z => Num z | None => NaN end
  end.

(** [Number(s)] on a string: surrounding white space is ignored, the empty
    string gives 0, a decimal integer literal with an optional sign gives
    its value and a string with any other character gives [NaN].  The
    other numeric literal syntaxes of JS (0x/0o/0b prefixes, fractions,
    exponents, Infinity) are outside this model and also map to [NaN]
    here; ripgrep's line-number field is always a decimal integer. *)
Definition Number (s : string) : jsnum :=
  match list_ascii_of_string (js_trim s) with
  | [] => Num 0
  | "+"%char :: l => decimal_literal l
  | "-"%char :: l =>
      match decimal_literal l with Num z => Num (- z) | NaN => NaN end
  | l => decimal_literal l
  end.

(** [Number(x)] where [x] may be [undefined] (a missing array element). *)
Definition Number_opt (s : option string) : jsnum :=
  match s with Some s => Number s | None => NaN end.

Definition digit_char (d : Z) : ascii := ascii_of_nat (48 + Z.to_nat d).

Fixpoint digits_rev (fuel : nat) (n : Z) : list ascii :=
  match fuel with
  | O => []
  | S f =>
      if n <? 10 then [digit_char n]
      else digit_char (n mod 10) :: digits_rev f (n / 10)
  end.

(** [String(n)] for an integer [n]. *)
Definition Z_to_string (z : Z) : string :=
  let body n := string_of_list_ascii
                  (rev (digits_rev (S (N.size_nat (Z.to_N n))) n)) in
  if z <? 0 then String "-" (body (- z)) else body z.

(** [String(x)] for a number [x]. *)
Definition js_num_to_string (x : jsnum) : string :=
  match x with NaN => "NaN" | Num z => Z_to_string z end.

(** [s.split(c)] for a one-character separator [c]. *)
Fixpoint split_char (c : ascii) (s : string) : list string :=
  match s with
  | EmptyString => [EmptyString]
  | String a s' =>
      if Ascii.eqb a c then EmptyString :: split_char c s'
      else match split_char c s' with
           | h :: t => String a h :: t
           | [] => [String a EmptyString]
           end
  end.

(** [s.split(sep)] where [sep] is [s[i]], possibly [undefined]:
    [s.split(undefined)] is [[s]]. *)
Definition js_split (sep : option ascii) (s : string) : list string :=
  match sep with None => [s] | Some c => split_char c s end.

(** [arr.join(sep)]; an [undefined] element is joined as the empty string. *)
Definition js_join (sep : string) (l : list (option string)) : string :=
  String.concat sep (map (fun o => match o with Some x => x | None => EmptyString end) l).

(** [s.startsWith(p)] *)
Definition starts_with (p s : string) : bool := String.prefix p s.

(** [s[i]] *)
Definition char_at (s : string) (i : nat) : option ascii := String.get i s.

(* ------------------------------------------------------------------ *)
(** ** Regions and the coalescer [rgLinesToRegions] (index.ts 15-54) *)

(** [type RgRegion] *)
Record RgRegion := mkRegion {
  filepath : string;
  firstLineNumber : jsnum;
  lastLineNumber : jsnum;
  lines : list string;
}.

(** One match line of ripgrep after [line.split(':')]: the file path, the
    parsed line number and the text ([rest.join(':')]). *)
Record RgMatch := mkMatch {
  m_filepath : string;
  m_lineNumber : jsnum;
  m_text : string;
}.

(** [const [ filepath, lineNumber, ...rest ] = line.split(':')], with
    [Number(lineNumber)] and [rest.join(':')] as the loop body uses them. *)
Definition parseRgLine (line : string) : RgMatch :=
  match split_char ":" line with
  | [] => mkMatch line NaN EmptyString
  | [fp] => mkMatch fp NaN EmptyString
  | fp :: ln :: rest => mkMatch fp (Number ln) (String.concat ":" rest)
  end.

(** The condition of the [if] at line 28: the open region exists, has the
    same path, and the line number is [lastLineNumber + 1]. *)
Definition extends (r : RgRegion) (m : RgMatch) : bool :=
  String.eqb (m_filepath m) (filepath r)
  && js_strict_eq (m_lineNumber m) (js_add (lastLineNumber r) (Num 1)).

(** [region.lastLineNumber = Number(lineNumber); region.lines.push(...)] *)
Definition extend (r : RgRegion) (m : RgMatch) : RgRegion :=
  mkRegion (filepath r) (firstLineNumber r) (m_lineNumber m)
           (lines r ++ [m_text m]).

(** The fresh region of lines 43-48. *)
Definition open_region (m : RgMatch) : RgRegion :=
  mkRegion (m_filepath m) (m_lineNumber m) (m_lineNumber m) [m_text m].

(** The loop of [rgLinesToRegions] with the open [region] as accumulator;
    a region is yielded when it is closed, and the last one after the
    loop.  A yielded region is never mutated afterwards (the variable is
    rebound to a fresh object), so the yielded values are plain values. *)
Fixpoint coalesce (region : option RgRegion) (ms : list RgMatch)
  : list RgRegion :=
  match ms with
  | [] => match region with Some r => [r] | None => [] end
  | m :: ms' =>
      match region with
      | Some r =>
          if extends r m then coalesce (Some (extend r m)) ms'
          else r :: coalesce (Some (open_region m)) ms'
      | None => coalesce (Some (open_region m)) ms'
      end
  end.

(** [rgLinesToRegions] *)
Definition rgLinesToRegions (ls : list string) : list RgRegion :=
  coalesce None (map parseRgLine ls).

(* ------------------------------------------------------------------ *)
(** ** Scripts and [parseScript] (index.ts 56-101, 185-265) *)

(** [type Script]; [undefined] fields are [None]. *)
Inductive Script :=
  | Rg (pattern : option string) (flags : option string)
  | Sed (separator : ascii) (pattern replacement flags : string)
  | PrintFiles
  | PrintRegions
  | Glob (pattern : string)
  | RgNegated (pattern : option string) (flags : string)
  | FilesFromStdin.

(** Truthiness of a string that may be [undefined]. *)
Definition truthy (o : option string) : bool :=
  match o with Some s => negb (String.eqb s EmptyString) | None => false end.

(** The [sed] branch (lines 186-208); [None] falls through to the next
    test. *)
Definition parse_sed (script : string) : option Script :=
  match char_at script 3 with
  | None => None  (* split(undefined) = [script]: pattern is undefined *)
  | Some c =>
      let parts := split_char c script in
      let function_ := nth_error parts 1 in
      let pattern := nth_error parts 2 in
      let replacement := nth_error parts 3 in
      let flags := nth_error parts 4 in
      let reconstructed :=
        js_join (String c EmptyString)
                [Some "sed"%string; function_; pattern; replacement; flags] in
      if truthy pattern && String.eqb reconstructed script then
        match pattern, replacement, flags with
        | Some p, Some r, Some f => Some (Sed c p r f)
        | _, _, _ => None
        end
      else None
  end.

(** [parseScript]; [None] is the [throw new Error('Unknown script type')]. *)
Definition parseScript (script : string) : option Script :=
  let sed := if starts_with "sed" script then parse_sed script else None in
  match sed with
  | Some s => Some s
  | None =>
  if starts_with "!rg" script then
    let parts := js_split (char_at script 3) script in
    Some (RgNegated (nth_error parts 1)
            (match nth_error parts 2 with
             | Some f => if truthy (Some f) then f else EmptyString
             | None => EmptyString end))
  else if starts_with "rg" script then
    let parts := js_split (char_at script 2) script in
    Some (Rg (nth_error parts 1) (nth_error parts 2))
  else if String.eqb script "print-files" then Some PrintFiles
  else if String.eqb script "print-regions" then Some PrintRegions
  else
    let glob :=
      if starts_with "glob" script then
        let parts := js_split (char_at script 4) script in
        match nth_error parts 1 with
        | Some p => if truthy (Some p) then Some (Glob p) else None
        | None => None
        end
      else None in
    match glob with
    | Some g => Some g
    | None =>
        if String.eqb script "files-from-stdin" then Some FilesFromStdin
        else None
    end
  end.

Example parse_ex1 : parseScript "sed/s/a/b/g" = Some (Sed "/" "a" "b" "g").
Proof. reflexivity. Qed.
Example parse_ex2 : parseScript "rg/foo/s" = Some (Rg (Some "foo"%string) (Some "s"%string)).
Proof. reflexivity. Qed.
Example parse_ex3 : parseScript "rg" = Some (Rg None None).
Proof. reflexivity. Qed.
Example parse_ex4 : parseScript "sed/s/a" = None.
Proof. reflexivity. Qed.
Example parse_ex5 : parseScript "glob" = None.
Proof. reflexivity. Qed.
Example parse_ex6 : parseScript "!rg/x" = Some (RgNegated (Some "x"%string) "").
Proof. reflexivity. Qed.
Example parse_ex7 : parseScript "files-from-stdin" = Some FilesFromStdin.
Proof. reflexivity. Qed.
Example number_ex : map Number [" 12 "; "-7"; "x"; ""; "1x"]%string = [Num 12; Num (-7); NaN; Num 0; NaN].
Proof. reflexivity. Qed.
Example to_string_ex : map Z_to_string [0; 7; 10; 123; -45] = ["0"; "7"; "10"; "123"; "-45"]%string.
Proof. reflexivity. Qed.
Example coalesce_ex :
  rgLinesToRegions ["a:1:x"; "a:2:y:z"; "a:4:w"; "b:5:v"]%string =
  [mkRegion "a" (Num 1) (Num 2) ["x"; "y:z"]; mkRegion "a" (Num 4) (Num 4) ["w"];
   mkRegion "b" (Num 5) (Num 5) ["v"]]%string.
Proof. reflexivity. Qed.

(* ------------------------------------------------------------------ *)
(** ** The driver state and its monad *)

(** The file system as [readLines] and [sed --in-place] see it: the lines
    of each file, [None] when the file cannot be opened. *)
Definition FS := string -> option (list string).

(** The collaborators: the [rg] process (its argument vector, with
    [undefined] elements kept as [None], to its output lines or [None] when
    the process fails), the [sed] process (its argument vector to the new
    file system, or [None] on failure) and [minimatch]. *)
Record Env := mkEnv {
  rg_process : list (option string) -> option (list string);
  sed_process : list string -> FS -> option FS;
  minimatch : string -> string -> bool;
}.

(** Observable events: a process started ([execa], announced on stderr
    with [+]) and a line written by [console.log]. *)
Inductive event :=
  | Exec (cmd : string) (args : list (option string))
  | Stdout (line : string).

(** The errors that reject [main]'s promise. *)
Inductive err :=
  | UnknownScriptType (script : string)  (* parseScript's throw *)
  | TypeError                            (* property read on undefined *)
  | ProcessFailure                       (* execa rejects *)
  | ReadFailure.                         (* createReadStream fails *)

(** The mutable variables of one run: [rgRegions], the files, the unread
    part of standard input, and what has been observed so far. *)
Record St := mkSt {
  regions : list RgRegion;
  files : FS;
  stdin : list string;
  trace : list event;
}.

Definition set_regions (rs : list RgRegion) (st : St) : St :=
  mkSt rs (files st) (stdin st) (trace st).
Definition set_files (fs : FS) (st : St) : St :=
  mkSt (regions st) fs (stdin st) (trace st).
Definition set_stdin (l : list string) (st : St) : St :=
  mkSt (regions st) (files st) l (trace st).
Definition emit (e : event) (st : St) : St :=
  mkSt (regions st) (files st) (stdin st) (trace st ++ [e]).

(** State and error: an error keeps the state reached so far (output
    already printed stands). *)
Definition M (A : Type) := St -> (err + A) * St.

Definition M_ret {A} (a : A) : M A := fun st => (inr a, st).
Definition M_bind {A B} (m : M A) (k : A -> M B) : M B :=
  fun st => match m st with
            | (inl e, st') => (inl e, st')
            | (inr a, st') => k a st'
            end.
Definition M_fail {A} (e : err) : M A := fun st => (inl e, st).
Definition M_modify (f : St -> St) : M unit := fun st => (inr tt, f st).
Definition M_get : M St := fun st => (inr st, st).

Notation "'let*' x ':=' m 'in' k" := (M_bind m (fun x => k))
  (at level 200, x name, m at level 100, k at level 200).
Notation "m ;; k" := (M_bind m (fun _ => k)) (at level 100, right associativity).

Fixpoint M_iter {A} (f : A -> M unit) (l : list A) : M unit :=
  match l with
  | [] => M_ret tt
  | x :: l' => f x ;; M_iter f l'
  end.

(* ------------------------------------------------------------------ *)
(** ** The collaborator wrappers (index.ts 103-183) *)

(** [flags.includes('s')] *)
Fixpoint includes_char (c : ascii) (s : string) : bool :=
  match s with
  | EmptyString => false
  | String a s' => Ascii.eqb a c || includes_char c s'
  end.

(** The argument vector of [executeRg] (lines 104-117) for defined
    [flags]. *)
Definition rg_args (pattern : option string) (flags : string)
    (fs : option (list string)) : list (option string) :=
  let baseArgs :=
    [Some "--line-buffered"%string]
    ++ (if includes_char "s" flags
        then [Some "--multiline"%string; Some "--multiline-dotall"%string]
        else [])
    ++ [Some "--line-number"%string; pattern] in
  baseArgs ++ map Some (match fs with Some l => l | None => [] end).

(** [if (line.trim()) yield line] *)
Definition nonblank (out : list string) : list string :=
  List.filter (fun l => negb (String.eqb (js_trim l) EmptyString)) out.

(** [executeRg]: the body runs when the generator is first iterated;
    [flags.includes] on [undefined] throws before the process starts. *)
Definition executeRg (env : Env) (pattern flags : option string)
    (fs : option (list string)) : M (list string) :=
  match flags with
  | None => M_fail TypeError
  | Some f =>
      let args := rg_args pattern f fs in
      M_modify (emit (Exec "rg" args)) ;;
      match rg_process env args with
      | None => M_fail ProcessFailure
      | Some out => M_ret (nonblank out)
      end
  end.

(** [sedRegion] *)
Definition sed_args (r : RgRegion) (sep : ascii) (p rep fl : string) : list string :=
  [ "--in-place"; "--regexp-extended";
    String.concat (String sep EmptyString)
      [ (js_join "," [Some (js_num_to_string (firstLineNumber r));
                      Some (js_num_to_string (lastLineNumber r))] ++ "s")%string;
        p; rep; fl ];
    filepath r ]%string.

Definition sedRegion (env : Env) (r : RgRegion) (sep : ascii) (p rep fl : string)
  : M unit :=
  let args := sed_args r sep p rep fl in
  M_modify (emit (Exec "sed" (map Some args))) ;;
  let* st := M_get in
  match sed_process env args (files st) with
  | None => M_fail ProcessFailure
  | Some fs' => M_modify (set_files fs')
  end.

(** [readLines] *)
Definition readLines (fp : string) : M (list string) :=
  let* st := M_get in
  match files st fp with
  | None => M_fail ReadFailure
  | Some ls => M_ret ls
  end.

(** The trimmed non-empty lines of standard input (lines 175-180). *)
Definition stdin_files (input : list string) : list string :=
  List.filter (fun l => negb (String.eqb l EmptyString)) (map js_trim input).

(** [readFilesFromStdin]: standard input is consumed. *)
Definition readFilesFromStdin : M (list string) :=
  let* st := M_get in
  M_modify (set_stdin []) ;;
  M_ret (stdin_files (stdin st)).

(* ------------------------------------------------------------------ *)
(** ** The stages of [main] (index.ts 267-414) *)

(** [[...new Set(l)]]: the distinct elements in first-occurrence order. *)
Fixpoint set_dedup (seen : gset string) (l : list string) : list string :=
  match l with
  | [] => []
  | x :: l' =>
      if decide (x ∈ seen) then set_dedup seen l'
      else x :: set_dedup ({[x]} ∪ seen) l'
  end.

(** The [Map<string, RgRegion[]>] built by the loops at lines 298-303 and
    370-375: each region is appended to the list of its file. *)
Definition group_by_file (rs : list RgRegion) : gmap string (list RgRegion) :=
  fold_left (fun (m : gmap string (list RgRegion)) r =>
               <[filepath r := default [] (m !! filepath r) ++ [r]]> m)
            rs ∅.

(** [byFile.get(fp) || []] *)
Definition regions_of (m : gmap string (list RgRegion)) (fp : string)
  : list RgRegion :=
  default [] (m !! fp).

(** The overlap test of lines 307-310 and 379-382 ([n] the new or negated
    region, [r] the current one). *)
Definition overlaps (n r : RgRegion) : bool :=
  js_le (firstLineNumber n) (lastLineNumber r)
  && js_ge (lastLineNumber n) (firstLineNumber r).

(** The lines printed for one region from the file's lines (lines
    340-351), numbering from [lineNumber]. *)
Fixpoint print_lines (r : RgRegion) (lineNumber : Z) (ls : list string)
  : list string :=
  match ls with
  | [] => []
  | l :: ls' =>
      (if js_ge (Num lineNumber) (firstLineNumber r)
          && js_le (Num lineNumber) (lastLineNumber r)
       then [String.concat ":" [filepath r; Z_to_string lineNumber; l]]
       else [])
      ++ print_lines r (lineNumber + 1) ls'
  end.

Definition print_region (r : RgRegion) : M unit :=
  let* ls := readLines (filepath r) in
  M_iter (fun o => M_modify (emit (Stdout o))) (print_lines r 1 ls).

(** The synthetic whole-file region of lines 395-400. *)
Definition seed_region (fp : string) : RgRegion :=
  mkRegion fp (Num 1) (Num MAX_SAFE_INTEGER) [].

Definition filter_regions (p : RgRegion -> bool) : M unit :=
  M_modify (fun st => set_regions (List.filter p (regions st)) st).

(** One iteration of the loop of [main]; [isFirst] is [index === 0]. *)
Definition run_script (env : Env) (isFirst : bool) (s : Script) : M unit :=
  match s with
  | Rg p f =>
      if isFirst then
        M_modify (set_regions []) ;;
        let* ls := executeRg env p f None in
        M_modify (set_regions (rgLinesToRegions ls))
      else
        let* st := M_get in
        let uniqueFiles := set_dedup ∅ (map filepath (regions st)) in
        let* ls := executeRg env p f (Some uniqueFiles) in
        let newRegionsByFile := group_by_file (rgLinesToRegions ls) in
        filter_regions (fun r =>
          existsb (fun n => overlaps n r) (regions_of newRegionsByFile (filepath r)))
  | Sed sep p rep fl =>
      let* st := M_get in
      M_iter (fun r => sedRegion env r sep p rep fl) (regions st)
  | PrintFiles =>
      let* st := M_get in
      M_iter (fun fp => M_modify (emit (Stdout fp)))
             (set_dedup ∅ (map filepath (regions st)))
  | PrintRegions =>
      let* st := M_get in
      M_iter print_region (regions st)
  | Glob pat =>
      filter_regions (fun r => minimatch env (filepath r) pat)
  | RgNegated p f =>
      let* st := M_get in
      let uniqueFiles := set_dedup ∅ (map filepath (regions st)) in
      let* ls := executeRg env p (Some f)
                   (if Nat.ltb 0 (length uniqueFiles) then Some uniqueFiles else None) in
      let negatedRegionsByFile := group_by_file (rgLinesToRegions ls) in
      filter_regions (fun r =>
        negb (existsb (fun n => overlaps n r)
                (regions_of negatedRegionsByFile (filepath r))))
  | FilesFromStdin =>
      let* filesFromStdin := readFilesFromStdin in
      if isFirst then
        M_modify (fun st =>
          set_regions (regions st ++ map seed_region filesFromStdin) st)
      else
        filter_regions (fun r => existsb (String.eqb (filepath r)) filesFromStdin)
  end.

Fixpoint run_from (env : Env) (index : nat) (ss : list Script) : M unit :=
  match ss with
  | [] => M_ret tt
  | s :: ss' => run_script env (Nat.eqb index 0) s ;; run_from env (S index) ss'
  end.

Definition is_print (s : Script) : bool :=
  match s with PrintFiles | PrintRegions => true | _ => false end.

(** Lines 270-277: a [print-regions] script is appended when no script
    prints. *)
Definition add_default_print (scripts : list Script) : list Script :=
  if existsb is_print scripts then scripts else scripts ++ [PrintRegions].

(** [scriptStrings.map(parseScript)]: the first unparsable string throws. *)
Fixpoint parse_all (ss : list string) : err + list Script :=
  match ss with
  | [] => inr []
  | s :: ss' =>
      match parseScript s with
      | None => inl (UnknownScriptType s)
      | Some sc =>
          match parse_all ss' with
          | inl e => inl e
          | inr scs => inr (sc :: scs)
          end
      end
  end.

Definition initial_state (fs : FS) (input : list string) : St :=
  mkSt [] fs input [].

(** [main]: the result of the run and the final state. *)
Definition main (env : Env) (fs : FS) (input : list string) (scriptStrings : list string)
  : (err + unit) * St :=
  (match parse_all scriptStrings with
   | inl e => M_fail e
   | inr scripts => run_from env 0 (add_default_print scripts)
   end) (initial_state fs input).

(* ------------------------------------------------------------------ *)
(** ** Specification-side notions *)

(** The per-line matches a region stands for: [filepath], the numbers
    [firstLineNumber], [firstLineNumber + 1], ... and the stored texts. *)
Fixpoint expand_from (fp : string) (n : jsnum) (ts : list string) : list RgMatch :=
  match ts with
  | [] => []
  | t :: ts' => mkMatch fp n t :: expand_from fp (js_add n (Num 1)) ts'
  end.

Definition expand (r : RgRegion) : list RgMatch :=
  expand_from (filepath r) (firstLineNumber r) (lines r).

(** Region [r1] ends at least two lines before [r2] begins. *)
Definition gap (r1 r2 : RgRegion) : Prop :=
  exists a b, lastLineNumber r1 = Num a /\ firstLineNumber r2 = Num b /\ a + 2 <= b.

(** No two regions of one file overlap or touch; stated on ordered pairs:
    of two regions of the same file, the earlier one ends at least two
    lines before the later one begins. *)
Definition canonical (rs : list RgRegion) : Prop :=
  ForallOrdPairs (fun r1 r2 => filepath r1 = filepath r2 -> gap r1 r2) rs.

(** The same, with either region allowed to come first. *)
Definition canonical_unordered (rs : list RgRegion) : Prop :=
  ForallOrdPairs (fun r1 r2 => filepath r1 = filepath r2 -> gap r1 r2 \/ gap r2 r1) rs.

(** Line [z] lies within the bounds of [r]. *)
Definition covers (r : RgRegion) (z : Z) : Prop :=
  exists a b, firstLineNumber r = Num a /\ lastLineNumber r = Num b /\ a <= z <= b.

(** A match stream as ripgrep produces it: grouped by file, line numbers
    ascending within a file. *)
Fixpoint stream_sorted (ms : list RgMatch) : Prop :=
  match ms with
  | [] => True
  | m :: ms' =>
      stream_sorted ms' /\
      match ms' with
      | [] => True
      | m' :: _ =>
          if String.eqb (m_filepath m) (m_filepath m')
          then js_lt (m_lineNumber m) (m_lineNumber m') = true
          else Forall (fun x => m_filepath x <> m_filepath m) ms'
      end
  end.

(* ------------------------------------------------------------------ *)
(** ** Lemmas on the coalescer *)

Lemma js_add_0 n : js_add n (Num 0) = n.
Proof. destruct n; simpl; [done | f_equal; lia]. Qed.

Lemma js_add_add n a b : js_add (js_add n (Num a)) (Num b) = js_add n (Num (a + b)).
Proof. destruct n; simpl; [done | f_equal; lia]. Qed.

(** The shape of every region the coalescer builds. *)
Definition region_wf (r : RgRegion) : Prop :=
  match firstLineNumber r with
  | NaN => lastLineNumber r = NaN /\ length (lines r) = 1%nat
  | Num a => lines r <> [] /\
             lastLineNumber r = Num (a + Z.of_nat (length (lines r)) - 1)
  end.

Lemma open_region_wf m : region_wf (open_region m).
Proof.
  unfold region_wf, open_region; simpl.
  destruct (m_lineNumber m); simpl; split; try done. f_equal; lia.
Qed.

Lemma extends_true r m :
  extends r m = true ->
  m_filepath m = filepath r /\
  exists a, lastLineNumber r = Num a /\ m_lineNumber m = Num (a + 1).
Proof.
  unfold extends. intros [Hf He]%andb_prop.
  apply String.eqb_eq in Hf. split; [done |].
  destruct (lastLineNumber r), (m_lineNumber m); simpl in He; try discriminate.
  apply Z.eqb_eq in He. subst. eauto.
Qed.

Lemma extend_wf r m : region_wf r -> extends r m = true -> region_wf (extend r m).
Proof.
  intros Hwf (_ & a & Hl & Hm)%extends_true.
  unfold region_wf in *; unfold extend; simpl.
  destruct (firstLineNumber r) as [| b]; [destruct Hwf; congruence |].
  destruct Hwf as [Hne Hlast]. rewrite Hlast in Hl. injection Hl as <-.
  split; [destruct (lines r); done |].
  rewrite Hm, length_app; simpl. f_equal. lia.
Qed.

Lemma coalesce_wf ms : forall o,
  (forall r, o = Some r -> region_wf r) -> Forall region_wf (coalesce o ms).
Proof.
  induction ms as [| m ms IH]; intros o Ho; simpl.
  - destruct o; constructor; auto.
  - destruct o as [r |].
    + destruct (extends r m) eqn:E.
      * apply IH. intros ? [= <-]. apply extend_wf; auto.
      * constructor; [auto |]. apply IH. intros ? [= <-]. apply open_region_wf.
    + apply IH. intros ? [= <-]. apply open_region_wf.
Qed.

Lemma coalesce_expand_run ts : forall r a,
  lastLineNumber r = Num a ->
  coalesce (Some r) (expand_from (filepath r) (Num (a + 1)) ts) =
  [mkRegion (filepath r) (firstLineNumber r)
            (Num (a + Z.of_nat (length ts))) (lines r ++ ts)].
Proof.
  induction ts as [| t ts IH]; intros r a Hl; simpl.
  - destruct r; simpl in *. rewrite app_nil_r, Z.add_0_r, Hl. done.
  - unfold extends at 1; simpl. rewrite String.eqb_refl, Hl. simpl.
    rewrite Z.eqb_refl. simpl.
    pose proof (IH (extend r (mkMatch (filepath r) (Num (a + 1)) t)) (a + 1)
                   eq_refl) as H. simpl in H. rewrite H.
    rewrite <- app_assoc. simpl.
    do 3 f_equal. lia.
Qed.

Lemma coalesce_None_wf ms : Forall region_wf (coalesce None ms).
Proof. apply coalesce_wf. discriminate. Qed.

Lemma expand_from_snoc fp ts : forall n t,
  expand_from fp n (ts ++ [t]) =
  expand_from fp n ts ++ [mkMatch fp (js_add n (Num (Z.of_nat (length ts)))) t].
Proof.
  induction ts as [| t' ts IH]; intros n t; simpl.
  - by rewrite js_add_0.
  - rewrite IH, js_add_add. repeat f_equal. lia.
Qed.

Lemma expand_extend r m :
  region_wf r -> extends r m = true -> expand (extend r m) = expand r ++ [m].
Proof.
  intros Hwf Hext. pose proof (extends_true r m Hext) as (Hf & a & Hl & Hm).
  unfold expand, extend; simpl. rewrite expand_from_snoc.
  unfold region_wf in Hwf.
  destruct (firstLineNumber r) as [| b]; [destruct Hwf; congruence |].
  destruct Hwf as [_ Hlast]. rewrite Hlast in Hl. injection Hl as Ha.
  destruct m as [mf ml mt]; simpl in *. subst. simpl.
  by replace (b + Z.of_nat (length (lines r)) - 1 + 1)
    with (b + Z.of_nat (length (lines r))) by lia.
Qed.

Lemma expand_open_region m : expand (open_region m) = [m].
Proof. by destruct m. Qed.

(** Coalescing loses and invents no match: expanding the regions gives the
    stream back. *)
Lemma coalesce_concat_expand ms : forall o,
  (forall r, o = Some r -> region_wf r) ->
  concat (map expand (coalesce o ms)) =
  match o with Some r => expand r | None => [] end ++ ms.
Proof.
  induction ms as [| m ms IH]; intros o Ho; simpl.
  - destruct o; simpl; [by rewrite !app_nil_r | done].
  - destruct o as [r |].
    + destruct (extends r m) eqn:E.
      * rewrite IH by (intros ? [= <-]; apply extend_wf; auto).
        rewrite expand_extend by auto. by rewrite <- app_assoc.
      * simpl. rewrite IH by (intros ? [= <-]; apply open_region_wf).
        by rewrite expand_open_region.
    + rewrite IH by (intros ? [= <-]; apply open_region_wf).
      by rewrite expand_open_region.
Qed.

Lemma in_expand_from fp ts : forall n m,
  In m (expand_from fp n ts) ->
  m_filepath m = fp /\
  exists k, 0 <= k < Z.of_nat (length ts) /\ m_lineNumber m = js_add n (Num k).
Proof.
  induction ts as [| t ts IH]; intros n m Hin; simpl in Hin; [done |].
  destruct Hin as [<- | Hin].
  - split; [done |]. exists 0. rewrite js_add_0. simpl. split; [lia | done].
  - destruct (IH _ _ Hin) as [Hf (k & Hk & Hl)]. split; [done |].
    exists (1 + k). rewrite Hl, js_add_add. simpl. split; [lia | done].
Qed.

Lemma expand_from_in fp ts : forall n k,
  0 <= k < Z.of_nat (length ts) ->
  exists t, In (mkMatch fp (js_add n (Num k)) t) (expand_from fp n ts).
Proof.
  induction ts as [| t ts IH]; intros n k Hk; simpl in Hk; [lia |].
  destruct (Z.eq_dec k 0) as [-> | Hk0].
  - exists t. rewrite js_add_0. simpl. auto.
  - destruct (IH (js_add n (Num 1)) (k - 1)) as [t' Ht']; [lia |].
    exists t'. simpl. right. rewrite js_add_add in Ht'.
    by replace (1 + (k - 1)) with k in Ht' by lia.
Qed.

Lemma expand_covers r f z :
  region_wf r ->
  (exists m, In m (expand r) /\ m_filepath m = f /\ m_lineNumber m = Num z) <->
  (filepath r = f /\ covers r z).
Proof.
  intros Hwf. unfold region_wf in Hwf. unfold covers, expand. split.
  - intros (m & Hin & Hf & Hl).
    destruct (in_expand_from _ _ _ _ Hin) as [Hfp (k & Hk & Hk')].
    split; [congruence |].
    destruct (firstLineNumber r) as [| a]; [rewrite Hk' in Hl; discriminate |].
    destruct Hwf as [_ Hlast]. rewrite Hk' in Hl. simpl in Hl. injection Hl as <-.
    exists a, (a + Z.of_nat (length (lines r)) - 1). split; [done | split; [done | lia]].
  - intros [Hf (a & b & Ha & Hb & Hz)].
    rewrite Ha in Hwf |- *. destruct Hwf as [_ Hlast]. rewrite Hlast in Hb.
    injection Hb as <-.
    destruct (expand_from_in (filepath r) (lines r) (Num a) (z - a)) as [t Ht]; [lia |].
    exists (mkMatch (filepath r) (js_add (Num a) (Num (z - a))) t).
    split; [done |]. simpl. split; [done |]. f_equal. lia.
Qed.

(** Regions in stream order: of two consecutive regions of one file the
    first ends two lines before the second begins, and a file whose block
    has ended does not come back. *)
Fixpoint regions_sorted (rs : list RgRegion) : Prop :=
  match rs with
  | [] => True
  | r :: rs' =>
      regions_sorted rs' /\
      match rs' with
      | [] => True
      | r' :: _ =>
          if String.eqb (filepath r) (filepath r') then gap r r'
          else Forall (fun x => filepath x <> filepath r) rs'
      end
  end.

(** The open region [r] may precede the rest [ms] of a sorted stream. *)
Definition compat (r : RgRegion) (ms : list RgMatch) : Prop :=
  match ms with
  | [] => True
  | m :: _ =>
      if String.eqb (filepath r) (m_filepath m)
      then js_lt (lastLineNumber r) (m_lineNumber m) = true
      else Forall (fun x => m_filepath x <> filepath r) ms
  end.

Lemma region_wf_le r a b :
  region_wf r -> firstLineNumber r = Num a -> lastLineNumber r = Num b -> a <= b.
Proof.
  unfold region_wf. intros Hwf Ha Hb. rewrite Ha in Hwf. destruct Hwf as [Hne Hl].
  rewrite Hl in Hb. injection Hb as <-. destruct (lines r); [done |]. simpl. lia.
Qed.

Lemma regions_sorted_canonical rs :
  Forall region_wf rs -> regions_sorted rs -> canonical rs.
Proof.
  unfold canonical.
  induction rs as [| r rs IH]; intros Hwf Hs; [constructor |].
  inversion Hwf as [| ? ? Hr Hwfs]; subst. destruct Hs as [Hs Hhd].
  constructor; [| by apply IH].
  destruct rs as [| r' rs]; [constructor |].
  specialize (IH Hwfs Hs). inversion IH as [| ? ? Hr' _]; subst.
  inversion Hwfs as [| ? ? Hwf' _]; subst.
  destruct (String.eqb (filepath r) (filepath r')) eqn:E.
  - apply String.eqb_eq in E.
    constructor; [done |].
    apply List.Forall_forall. intros x Hx Hfx.
    assert (Hg : gap r' x) by (eapply (proj1 (List.Forall_forall _ _)) in Hr'; [apply Hr'; congruence | done]).
    destruct Hhd as (a & b & Ha & Hb & Hab). destruct Hg as (c & d & Hc & Hd & Hcd).
    pose proof (region_wf_le r' b c Hwf' Hb Hc).
    exists a, d. split_and!; [done | done | lia].
  - apply List.Forall_forall. intros x Hx Hfx.
    eapply (proj1 (List.Forall_forall _ _)) in Hhd; [| exact Hx]. congruence.
Qed.

Lemma coalesce_head ms : forall r,
  exists r1 rest, coalesce (Some r) ms = r1 :: rest /\
                  filepath r1 = filepath r /\ firstLineNumber r1 = firstLineNumber r.
Proof.
  induction ms as [| m ms IH]; intros r; simpl; [eauto |].
  destruct (extends r m); [| eauto].
  destruct (IH (extend r m)) as (r1 & rest & -> & H1 & H2). eauto.
Qed.

Lemma coalesce_filepaths ms : forall r x,
  In x (coalesce (Some r) ms) ->
  filepath x = filepath r \/ exists m, In m ms /\ filepath x = m_filepath m.
Proof.
  induction ms as [| m ms IH]; intros r x Hin; simpl in Hin.
  - destruct Hin as [<- | []]. auto.
  - destruct (extends r m).
    + destruct (IH _ _ Hin) as [H | (m' & Hm' & H)]; [by left |].
      right. exists m'. simpl. auto.
    + destruct Hin as [<- | Hin]; [by left |].
      right. destruct (IH _ _ Hin) as [H | (m' & Hm' & H)];
        [exists m | exists m']; simpl; auto.
Qed.

Lemma coalesce_sorted ms : forall r,
  stream_sorted ms -> compat r ms -> regions_sorted (coalesce (Some r) ms).
Proof.
  induction ms as [| m ms IH]; intros r Hs Hc; simpl; [done |].
  destruct Hs as [Hs Hm].
  destruct (extends r m) eqn:E.
  - apply IH; [done |].
    pose proof (extends_true r m E) as (Hf & _).
    unfold compat. destruct ms as [| m' ms]; [done |].
    simpl. unfold extend; simpl. rewrite <- Hf. exact Hm.
  - assert (Hc' : compat (open_region m) ms) by (destruct ms; done).
    pose proof (IH _ Hs Hc') as Hsorted.
    destruct (coalesce_head ms (open_region m)) as (r1 & rest & Heq & Hf1 & Hl1).
    simpl. rewrite Heq in Hsorted |- *. split; [done |].
    simpl in Hf1, Hl1. unfold compat in Hc.
    destruct (String.eqb (filepath r) (m_filepath m)) eqn:Ef.
    + rewrite Hf1, Ef. unfold gap. rewrite Hl1.
      unfold extends in E. apply String.eqb_eq in Ef. rewrite Ef, String.eqb_refl in E.
      simpl in E.
      destruct (lastLineNumber r) as [| a], (m_lineNumber m) as [| b];
        simpl in Hc, E; try discriminate.
      apply Z.ltb_lt in Hc. apply Z.eqb_neq in E. exists a, b. split_and!; [done | done | lia].
    + rewrite Hf1, Ef.
      apply List.Forall_forall. intros x Hx.
      rewrite <- Heq in Hx.
      destruct (coalesce_filepaths _ _ _ Hx) as [Hfx | (m' & Hm' & Hfx)].
      * simpl in Hfx. rewrite Hfx. intros Heq'. inversion Hc; subst. congruence.
      * rewrite Hfx. inversion Hc; subst.
        eapply (proj1 (List.Forall_forall _ _)) in Hm'; [exact Hm' | done].
Qed.

Lemma coalesce_app pre : forall o rest,
  exists out o', coalesce o (pre ++ rest) = out ++ coalesce o' rest.
Proof.
  induction pre as [| m pre IH]; intros o rest; simpl.
  - by exists [], o.
  - destruct o as [r |]; [destruct (extends r m) |]; try apply IH.
    destruct (IH (Some (open_region m)) rest) as (out & o' & ->).
    by exists (r :: out), o'.
Qed.

Lemma coalesce_nan_line o m post :
  m_lineNumber m = NaN -> In (open_region m) (coalesce o (m :: post)).
Proof.
  intros Hm.
  assert (Hopen : exists rest, coalesce (Some (open_region m)) post = open_region m :: rest).
  { destruct post as [| x post]; simpl; [eauto |].
    unfold extends; simpl. rewrite Hm. simpl.
    destruct (m_lineNumber x); simpl; rewrite andb_false_r; eauto. }
  destruct Hopen as [rest Hrest].
  destruct o as [r |]; simpl; [| rewrite Hrest; simpl; auto].
  unfold extends. rewrite Hm. simpl. rewrite andb_false_r, Hrest. simpl. auto.
Qed.

(* ------------------------------------------------------------------ *)
(** ** Sample environments *)

(** An environment whose [rg] prints [out] whatever it is asked, whose
    [sed] leaves the files as they are and whose [minimatch] accepts
    everything. *)
Definition env_with_rg (out : list string) : Env :=
  mkEnv (fun _ => Some out) (fun _ fs => Some fs) (fun _ _ => true).

Definition no_files : FS := fun _ => None.

(* ------------------------------------------------------------------ *)
(** ** The coalescer (claims C3, C4, C9) *)

(** C3: on a stream grouped by file with ascending line numbers within a
    file, the regions of the coalescer are canonical (of two regions of
    one file the earlier ends at least two lines before the later begins,
    so they are disjoint and not adjacent), the line numbers covered by
    the regions of a file are exactly the line numbers of that file's
    matches, and the empty stream gives no region. *)
Theorem coalesce_sorted_stream_spec (ms : list RgMatch) :
  stream_sorted ms ->
  canonical (coalesce None ms) /\
  (forall f z,
     (exists r, In r (coalesce None ms) /\ filepath r = f /\ covers r z) <->
     (exists m, In m ms /\ m_filepath m = f /\ m_lineNumber m = Num z)) /\
  coalesce None [] = [].
Proof.
  intros Hs. split_and!; [| | done].
  - destruct ms as [| m ms]; [constructor |].
    pose proof (coalesce_None_wf (m :: ms)) as W. simpl in W |- *.
    apply regions_sorted_canonical; [done |].
    destruct Hs as [Hs Hm]. apply coalesce_sorted; [done |].
    destruct ms; done.
  - intros f z.
    pose proof (coalesce_concat_expand ms None) as E.
    simpl in E. specialize (E ltac:(discriminate)).
    pose proof (coalesce_None_wf ms) as W.
    split.
    + intros (r & Hin & Hf & Hcov).
      assert (Hwf : region_wf r) by (eapply (proj1 (List.Forall_forall _ _)) in W; eauto).
      destruct (proj2 (expand_covers r f z Hwf) (conj Hf Hcov)) as (m & Hm & Hmf & Hml).
      exists m. split; [| done].
      rewrite <- E. apply in_concat. exists (expand r). split; [apply in_map |]; done.
    + intros (m & Hin & Hmf & Hml).
      rewrite <- E in Hin. apply in_concat in Hin as (l & Hl & Hml').
      apply in_map_iff in Hl as (r & <- & Hr).
      assert (Hwf : region_wf r) by (eapply (proj1 (List.Forall_forall _ _)) in W; eauto).
      destruct (proj1 (expand_covers r f z Hwf) (ex_intro _ m (conj Hml' (conj Hmf Hml))))
        as [Hf Hcov].
      eauto.
Qed.

Definition sample_stream : list RgMatch :=
  [mkMatch "a" (Num 1) "x"; mkMatch "a" (Num 2) "y"; mkMatch "a" (Num 5) "z";
   mkMatch "b" (Num 3) "w"]%string.

Lemma coalesce_sorted_stream_spec_witness :
  stream_sorted sample_stream /\ canonical (coalesce None sample_stream).
Proof.
  assert (H : stream_sorted sample_stream).
  { simpl. split_and!; try done; repeat constructor; discriminate. }
  split; [exact H | apply (coalesce_sorted_stream_spec sample_stream H)].
Defined.

(** C9: coalescing is idempotent: a region produced by the coalescer,
    expanded back into its per-line matches, coalesces to exactly itself. *)
Theorem coalesce_idempotent (ms : list RgMatch) (r : RgRegion) :
  In r (coalesce None ms) -> coalesce None (expand r) = [r].
Proof.
  intros Hin.
  assert (Hwf : region_wf r)
    by (eapply (proj1 (List.Forall_forall _ _)) in Hin; [exact Hin | apply coalesce_None_wf]).
  unfold region_wf in Hwf.
  destruct r as [fp first last ts]; simpl in *.
  destruct first as [| a].
  - destruct Hwf as [-> Hlen].
    destruct ts as [| t [| t' ts]]; try discriminate. done.
  - destruct Hwf as [Hne ->].
    destruct ts as [| t ts]; [done |].
    unfold expand; simpl.
    pose proof (coalesce_expand_run ts (open_region (mkMatch fp (Num a) t)) a eq_refl)
      as H. simpl in H. rewrite H.
    by replace (a + Z.of_nat (S (length ts)) - 1)
                 with (a + Z.of_nat (length ts)) by lia.
Qed.

Lemma coalesce_idempotent_witness :
  In (mkRegion "a" (Num 1) (Num 2) ["x"; "y"]%string) (coalesce None sample_stream) /\
  coalesce None (expand (mkRegion "a" (Num 1) (Num 2) ["x"; "y"]%string)) =
  [mkRegion "a" (Num 1) (Num 2) ["x"; "y"]%string].
Proof.
  assert (H : In (mkRegion "a" (Num 1) (Num 2) ["x"; "y"]%string)
                 (coalesce None sample_stream)) by (simpl; auto).
  split; [exact H | exact (coalesce_idempotent sample_stream _ H)].
Defined.

(** C4 (as the code behaves): the coalescer validates nothing.  In a
    stream of matches, a match whose line number is [NaN] (what [Number]
    gives for a line-number field that is missing or not a number, such
    as [x]) becomes, without any error, a region of its own with [NaN]
    first and last line and its text; the coalescer goes on with the rest
    of the stream and keeps every match of it. *)
Theorem malformed_line_number_own_region (pre post : list RgMatch) (m : RgMatch) :
  m_lineNumber m = NaN ->
  In (mkRegion (m_filepath m) NaN NaN [m_text m]) (coalesce None (pre ++ m :: post)) /\
  concat (map expand (coalesce None (pre ++ m :: post))) = pre ++ m :: post.
Proof.
  intros Hnan. split.
  - destruct (coalesce_app pre None (m :: post)) as (out & o' & ->).
    apply in_or_app. right.
    pose proof (coalesce_nan_line o' m post Hnan) as H.
    unfold open_region in H. rewrite Hnan in H. exact H.
  - by rewrite coalesce_concat_expand by discriminate.
Qed.

Lemma malformed_line_number_own_region_witness :
  parseRgLine "a.txt:x:foo" = mkMatch "a.txt" NaN "foo" /\
  In (mkRegion "a.txt" NaN NaN ["foo"])
     (coalesce None ([mkMatch "a.txt" (Num 1) "bar"] ++
                     mkMatch "a.txt" NaN "foo" :: [mkMatch "a.txt" (Num 2) "baz"]))%string.
Proof.
  split; [reflexivity |].
  exact (proj1 (malformed_line_number_own_region [mkMatch "a.txt" (Num 1) "bar"]%string
                  [mkMatch "a.txt" (Num 2) "baz"]%string (mkMatch "a.txt" NaN "foo")%string
                  eq_refl)).
Defined.

(** C4 fails as stated: with [rg] printing the match line [a.txt:x:foo]
    (line-number field [x]), the run [rg/foo/ print-files] completes
    without error, keeps a region with [NaN] bounds and prints its file. *)
Lemma malformed_line_number_no_error :
  fst (main (env_with_rg ["a.txt:x:foo"]%string) no_files [] ["rg/foo/"; "print-files"]%string)
    = inr tt /\
  regions (snd (main (env_with_rg ["a.txt:x:foo"]%string) no_files [] ["rg/foo/"; "print-files"]%string))
    = [mkRegion "a.txt" NaN NaN ["foo"]]%string /\
  trace (snd (main (env_with_rg ["a.txt:x:foo"]%string) no_files [] ["rg/foo/"; "print-files"]%string))
    = [Exec "rg" [Some "--line-buffered"; Some "--line-number"; Some "foo"];
       Stdout "a.txt"]%string.
Proof. split_and!; vm_compute; reflexivity. Qed.

(* ------------------------------------------------------------------ *)
(** ** Lemmas on the stages *)

Lemma group_by_file_acc rs : forall (acc : gmap string (list RgRegion)) f,
  default [] (fold_left (fun (m : gmap string (list RgRegion)) r =>
                <[filepath r := default [] (m !! filepath r) ++ [r]]> m) rs acc !! f) =
  default [] (acc !! f) ++ List.filter (fun n => String.eqb (filepath n) f) rs.
Proof.
  induction rs as [| r rs IH]; intros acc f; simpl; [by rewrite app_nil_r |].
  rewrite IH, lookup_insert.
  destruct (decide (filepath r = f)) as [<- | Hne].
  - rewrite String.eqb_refl. simpl. by rewrite <- app_assoc.
  - apply String.eqb_neq in Hne. by rewrite Hne.
Qed.

(** [newRegionsByFile.get(fp) || []] is the list of new regions of [fp]. *)
Lemma regions_of_group_by_file rs f :
  regions_of (group_by_file rs) f = List.filter (fun n => String.eqb (filepath n) f) rs.
Proof. unfold regions_of, group_by_file. by rewrite group_by_file_acc. Qed.

Lemma existsb_filter {A} (p q : A -> bool) l :
  existsb q (List.filter p l) = existsb (fun x => p x && q x) l.
Proof.
  induction l as [| x l IH]; simpl; [done |].
  destruct (p x); simpl; by rewrite IH.
Qed.

(** Same-file overlap of a new region [n] with the current region [r]. *)
Definition overlaps_in_file (n r : RgRegion) : bool :=
  String.eqb (filepath n) (filepath r) && overlaps n r.

Lemma any_overlap_grouped news r :
  existsb (fun n => overlaps n r) (regions_of (group_by_file news) (filepath r)) =
  existsb (fun n => overlaps_in_file n r) news.
Proof. by rewrite regions_of_group_by_file, existsb_filter. Qed.

Lemma filter_regions_run p st :
  filter_regions p st = (inr tt, set_regions (List.filter p (regions st)) st).
Proof. done. Qed.

(* ------------------------------------------------------------------ *)
(** ** Intersect and subtract (claims C1, C2) *)

(** C1: a chained (non-first) [rg] stage keeps exactly the current regions
    [r] for which some region [n] of the new search lies in the same file
    and overlaps [r] ([n.first <= r.last] and [n.last >= r.first]); the
    result is a filter of the current list, so a kept region is the very
    same record, with its own bounds and lines. *)
Theorem chained_rg_intersects (env : Env) (st : St) (p : option string)
    (f : string) (out : list string) :
  rg_process env (rg_args p f (Some (set_dedup ∅ (map filepath (regions st))))) = Some out ->
  fst (run_script env false (Rg p (Some f)) st) = inr tt /\
  regions (snd (run_script env false (Rg p (Some f)) st)) =
  List.filter
    (fun r => existsb (fun n => overlaps_in_file n r) (rgLinesToRegions (nonblank out)))
    (regions st).
Proof.
  intros H. unfold run_script.
  cbv [M_bind M_get executeRg M_modify M_ret]. rewrite H.
  rewrite filter_regions_run. simpl. split; [done |].
  apply filter_ext. intros r. apply any_overlap_grouped.
Qed.

(** A current region set: [f] lines 10-12 and line 20. *)
Definition sample_state : St :=
  mkSt [mkRegion "f" (Num 10) (Num 12) ["a"; "b"; "c"];
        mkRegion "f" (Num 20) (Num 20) ["d"]]%string no_files [] [].

Lemma chained_rg_intersects_witness :
  rg_process (env_with_rg ["f:11:x"]%string)
    (rg_args (Some "x"%string) "" (Some (set_dedup ∅ (map filepath (regions sample_state)))))
    = Some ["f:11:x"]%string /\
  regions (snd (run_script (env_with_rg ["f:11:x"]%string) false
                  (Rg (Some "x"%string) (Some ""%string)) sample_state)) =
  [mkRegion "f" (Num 10) (Num 12) ["a"; "b"; "c"]]%string.
Proof.
  split; [reflexivity |].
  rewrite (proj2 (chained_rg_intersects (env_with_rg ["f:11:x"]%string) sample_state
                    (Some "x"%string) "" ["f:11:x"]%string eq_refl)).
  vm_compute. reflexivity.
Defined.

(** C2: a negated-search stage drops exactly the current regions [r] for
    which some region [n] of the negated search lies in the same file and
    overlaps [r] by at least one line; the whole region goes (it is not
    split) and every other region is kept as the same record. *)
Theorem negated_rg_subtracts (env : Env) (isFirst : bool) (st : St)
    (p : option string) (f : string) (out : list string) :
  rg_process env
    (rg_args p f (if Nat.ltb 0 (length (set_dedup ∅ (map filepath (regions st))))
                  then Some (set_dedup ∅ (map filepath (regions st))) else None))
    = Some out ->
  fst (run_script env isFirst (RgNegated p f) st) = inr tt /\
  regions (snd (run_script env isFirst (RgNegated p f) st)) =
  List.filter
    (fun r => negb (existsb (fun n => overlaps_in_file n r) (rgLinesToRegions (nonblank out))))
    (regions st).
Proof.
  intros H. unfold run_script.
  cbv [M_bind M_get executeRg M_modify M_ret]. rewrite H.
  rewrite filter_regions_run. simpl. split; [done |].
  apply filter_ext. intros r. by rewrite any_overlap_grouped.
Qed.

Lemma negated_rg_subtracts_witness :
  rg_process (env_with_rg ["f:12:x"; "f:13:y"]%string)
    (rg_args (Some "x"%string) "" (Some (set_dedup ∅ (map filepath (regions sample_state)))))
    = Some ["f:12:x"; "f:13:y"]%string /\
  regions (snd (run_script (env_with_rg ["f:12:x"; "f:13:y"]%string) false
                  (RgNegated (Some "x"%string) "") sample_state)) =
  [mkRegion "f" (Num 20) (Num 20) ["d"]]%string.
Proof.
  split; [reflexivity |].
  rewrite (proj2 (negated_rg_subtracts (env_with_rg ["f:12:x"; "f:13:y"]%string) false
                    sample_state (Some "x"%string) "" ["f:12:x"; "f:13:y"]%string eq_refl)).
  vm_compute. reflexivity.
Defined.

(* ------------------------------------------------------------------ *)
(** ** The filtering stages (claim C10) *)

(** The stages that only narrow the current set: a chained [rg], any
    [!rg], any [glob], a non-first [files-from-stdin]. *)
Definition filtering_stage (isFirst : bool) (s : Script) : bool :=
  match s with
  | Rg _ _ | FilesFromStdin => negb isFirst
  | RgNegated _ _ | Glob _ => true
  | _ => false
  end.

Lemma list_filter_sublist {A} (p : A -> bool) (l : list A) : List.filter p l `sublist_of` l.
Proof.
  induction l as [| x l IH]; simpl; [constructor |].
  destruct (p x); [by apply sublist_skip | by apply sublist_cons].
Qed.

Lemma executeRg_regions env p f fs st :
  regions (snd (executeRg env p f fs st)) = regions st.
Proof.
  unfold executeRg. destruct f as [f |]; [| done].
  cbv [M_bind M_modify M_ret M_fail]. simpl.
  by destruct (rg_process env _).
Qed.

Lemma readFilesFromStdin_regions st :
  regions (snd (readFilesFromStdin st)) = regions st.
Proof. done. Qed.

(** A filtering stage ends in [filter_regions] on the current set. *)
Lemma filtering_stage_filters env isFirst s st st' :
  filtering_stage isFirst s = true ->
  run_script env isFirst s st = (inr tt, st') ->
  exists p, regions st' = List.filter p (regions st).
Proof.
  intros Hs Hrun.
  destruct s as [p f | | | | g | p f |]; simpl in Hs; try discriminate;
    unfold run_script in Hrun.
  - destruct isFirst; [discriminate |].
    cbv [M_bind M_get] in Hrun.
    destruct (executeRg env p f _ st) as [[e | ls] st1] eqn:E; [discriminate |].
    rewrite filter_regions_run in Hrun. injection Hrun as <-.
    pose proof (executeRg_regions env p f (Some (set_dedup ∅ (map filepath (regions st)))) st)
      as Hr. rewrite E in Hr. simpl in Hr. rewrite <- Hr. eauto.
  - rewrite filter_regions_run in Hrun. injection Hrun as <-. eauto.
  - cbv [M_bind M_get] in Hrun.
    destruct (executeRg env p (Some f) _ st) as [[e | ls] st1] eqn:E; [discriminate |].
    rewrite filter_regions_run in Hrun. injection Hrun as <-.
    match type of E with executeRg _ _ _ ?fs _ = _ =>
      pose proof (executeRg_regions env p (Some f) fs st) as Hr end.
    rewrite E in Hr. simpl in Hr. rewrite <- Hr. eauto.
  - destruct isFirst; [discriminate |].
    cbv [M_bind] in Hrun. simpl in Hrun.
    rewrite filter_regions_run in Hrun. injection Hrun as <-. simpl. eauto.
Qed.

(** C10: a filtering stage returns a sublist of its input: each output
    region is an input region, unchanged, in the same relative order,
    and no region is created or duplicated. *)
Theorem filtering_stage_sublist (env : Env) (isFirst : bool) (s : Script) (st st' : St) :
  filtering_stage isFirst s = true ->
  run_script env isFirst s st = (inr tt, st') ->
  regions st' `sublist_of` regions st.
Proof.
  intros Hs Hrun.
  destruct (filtering_stage_filters env isFirst s st st' Hs Hrun) as [p ->].
  apply list_filter_sublist.
Qed.

Lemma filtering_stage_sublist_witness :
  filtering_stage false (Glob "*.ts") = true /\
  run_script (env_with_rg []) false (Glob "*.ts") sample_state =
    (inr tt, sample_state) /\
  regions sample_state `sublist_of` regions sample_state.
Proof.
  assert (H1 : filtering_stage false (Glob "*.ts") = true) by reflexivity.
  assert (H2 : run_script (env_with_rg []) false (Glob "*.ts") sample_state =
               (inr tt, sample_state)) by reflexivity.
  split_and!; [exact H1 | exact H2 | exact (filtering_stage_sublist _ _ _ _ _ H1 H2)].
Defined.

(* ------------------------------------------------------------------ *)
(** ** Canonical form across the stages (claim C5) *)

(** A computation that leaves [rgRegions] alone. *)
Definition keeps_regions {A} (m : M A) : Prop :=
  forall st, regions (snd (m st)) = regions st.

Lemma keeps_bind {A B} (m : M A) (k : A -> M B) :
  keeps_regions m -> (forall a, keeps_regions (k a)) -> keeps_regions (M_bind m k).
Proof.
  intros Hm Hk st. unfold M_bind.
  specialize (Hm st). destruct (m st) as [[e | a] st1]; simpl in *; [done |].
  by rewrite Hk.
Qed.

Lemma keeps_ret {A} (a : A) : keeps_regions (M_ret a).
Proof. done. Qed.

Lemma keeps_fail {A} e : keeps_regions (@M_fail A e).
Proof. done. Qed.

Lemma keeps_get : keeps_regions M_get.
Proof. done. Qed.

Lemma keeps_emit e : keeps_regions (M_modify (emit e)).
Proof. done. Qed.

Lemma keeps_set_files fs : keeps_regions (M_modify (set_files fs)).
Proof. done. Qed.

Lemma keeps_iter {A} (f : A -> M unit) l :
  (forall x, keeps_regions (f x)) -> keeps_regions (M_iter f l).
Proof.
  intros Hf. induction l as [| x l IH]; simpl; [apply keeps_ret |].
  apply keeps_bind; auto.
Qed.

Create HintDb keeps.
#[local] Hint Resolve keeps_bind keeps_ret keeps_fail keeps_get keeps_emit
  keeps_set_files keeps_iter : keeps.

Lemma keeps_sedRegion env r sep p rep fl : keeps_regions (sedRegion env r sep p rep fl).
Proof.
  unfold sedRegion. apply keeps_bind; [auto with keeps | intros _].
  apply keeps_bind; [auto with keeps | intros st].
  destruct (sed_process env _ _); auto with keeps.
Qed.

Lemma keeps_print_region r : keeps_regions (print_region r).
Proof.
  unfold print_region, readLines. apply keeps_bind.
  - apply keeps_bind; [auto with keeps | intros st]. destruct (files st _); auto with keeps.
  - intros ls. auto with keeps.
Qed.

Lemma ForallOrdPairs_sublist {A} (R : A -> A -> Prop) l1 l2 :
  l1 `sublist_of` l2 -> ForallOrdPairs R l2 -> ForallOrdPairs R l1.
Proof.
  induction 1 as [| x l1 l2 Hs IH | x l1 l2 Hs IH]; intros H.
  - constructor.
  - inversion H as [| ? ? Hx Hl2]; subst. constructor; [| by apply IH].
    apply List.Forall_forall. intros y Hy.
    apply (proj1 (List.Forall_forall _ _) Hx).
    apply list_elem_of_In. apply (elem_of_sublist l1 l2 y); [| done].
    by apply list_elem_of_In.
  - inversion H; subst. by apply IH.
Qed.

Lemma canonical_unordered_of_canonical rs : canonical rs -> canonical_unordered rs.
Proof.
  unfold canonical, canonical_unordered.
  induction 1 as [| r rs Hr Hrs IH]; constructor; [| done].
  eapply Forall_impl; [exact Hr |]. simpl. auto.
Qed.

Lemma coalesce_canonical ms : stream_sorted ms -> canonical (coalesce None ms).
Proof.
  intros Hs. destruct ms as [| m ms]; [constructor |].
  pose proof (coalesce_None_wf (m :: ms)) as W. simpl in W |- *.
  apply regions_sorted_canonical; [done |].
  destruct Hs as [Hs Hm]. apply coalesce_sorted; [done |].
  destruct ms; done.
Qed.

Lemma seeds_canonical fs : NoDup fs -> canonical_unordered (map seed_region fs).
Proof.
  unfold canonical_unordered.
  induction 1 as [| x fs Hx Hfs IH]; simpl; constructor; [| done].
  apply List.Forall_forall. intros r Hr Hf.
  apply in_map_iff in Hr as (y & <- & Hy). simpl in Hf. subst y.
  exfalso. apply Hx. by apply list_elem_of_In.
Qed.

#[local] Hint Resolve keeps_sedRegion keeps_print_region : keeps.

Lemma keeps_run {A} (m : M A) st r st' :
  keeps_regions m -> m st = (r, st') -> regions st' = regions st.
Proof. intros Hk Hm. specialize (Hk st). by rewrite Hm in Hk. Qed.

(** A stage that leaves [rgRegions] alone keeps it canonical. *)
Ltac keeps_case H :=
  match type of H with
  | ?m ?st0 = _ =>
      let Hk := fresh "Hk" in
      assert (Hk : keeps_regions m) by (unfold run_script; auto with keeps);
      by rewrite (keeps_run _ _ _ _ Hk H)
  end.

(** What a stage needs from its input for its output to be canonical: a
    first [rg] stage needs ripgrep's output grouped by file with ascending
    line numbers, a first [files-from-stdin] stage starts from the empty
    set and needs each path listed once. *)
Definition stage_precondition (env : Env) (isFirst : bool) (s : Script) (st : St) : Prop :=
  match s with
  | Rg p (Some f) =>
      isFirst = true -> forall out, rg_process env (rg_args p f None) = Some out ->
      stream_sorted (map parseRgLine (nonblank out))
  | FilesFromStdin =>
      isFirst = true -> regions st = [] /\ NoDup (stdin_files (stdin st))
  | _ => True
  end.

(** C5 (as the code behaves): every stage maps a canonical region set
    (no two regions of one file overlap or touch) to a canonical one,
    provided a first-stage search gets a sorted stream from ripgrep and a
    first-stage [files-from-stdin] lists each path at most once.  The
    filtering, substitution and report stages need no proviso. *)
Theorem canonical_form_kept (env : Env) (isFirst : bool) (s : Script) (st st' : St) :
  canonical_unordered (regions st) ->
  stage_precondition env isFirst s st ->
  run_script env isFirst s st = (inr tt, st') ->
  canonical_unordered (regions st').
Proof.
  intros Hc Hpre Hrun.
  destruct (filtering_stage isFirst s) eqn:Hf.
  { destruct (filtering_stage_filters env isFirst s st st' Hf Hrun) as [p ->].
    eapply ForallOrdPairs_sublist; [apply list_filter_sublist | exact Hc]. }
  destruct s as [p f | sep p rep fl | | | g | p f |]; simpl in Hf, Hpre;
    try discriminate.
  - destruct isFirst; [| discriminate].
    destruct f as [f |]; [| discriminate].
    unfold run_script in Hrun. cbv [M_bind M_modify M_ret executeRg] in Hrun.
    destruct (rg_process env (rg_args p f None)) as [out |] eqn:Hout; [| discriminate].
    injection Hrun as <-. simpl.
    apply canonical_unordered_of_canonical, coalesce_canonical.
    by apply (Hpre eq_refl).
  - keeps_case Hrun.
  - keeps_case Hrun.
  - keeps_case Hrun.
  - destruct isFirst; [| discriminate].
    destruct (Hpre eq_refl) as [Hnil Hnd].
    unfold run_script in Hrun. cbv [M_bind M_modify M_ret M_get readFilesFromStdin] in Hrun.
    injection Hrun as <-. simpl. rewrite Hnil. simpl.
    by apply seeds_canonical.
Qed.

Lemma sample_state_canonical : canonical_unordered (regions sample_state).
Proof.
  unfold canonical_unordered. simpl.
  apply FOP_cons; [| apply FOP_cons; [constructor | constructor]].
  constructor; [| constructor].
  intros _. left. exists 12, 20. split_and!; [done | done | lia].
Qed.

Lemma canonical_form_kept_witness :
  canonical_unordered (regions sample_state) /\
  stage_precondition (env_with_rg []) false (Glob "*.ts") sample_state /\
  run_script (env_with_rg []) false (Glob "*.ts") sample_state = (inr tt, sample_state) /\
  canonical_unordered (regions sample_state).
Proof.
  assert (H1 := sample_state_canonical).
  assert (H2 : stage_precondition (env_with_rg []) false (Glob "*.ts") sample_state)
    by exact I.
  assert (H3 : run_script (env_with_rg []) false (Glob "*.ts") sample_state =
               (inr tt, sample_state)) by reflexivity.
  split_and!; [exact H1 | exact H2 | exact H3 |].
  exact (canonical_form_kept _ _ _ _ _ H1 H2 H3).
Defined.

(** C5 fails as stated: [files-from-stdin] as the first stage with the
    path [x.txt] given twice on standard input yields two identical
    whole-file regions of [x.txt], which overlap. *)
Lemma stdin_duplicate_path_overlap :
  regions (snd (main (env_with_rg []) no_files ["x.txt"; "x.txt"]%string
                  ["files-from-stdin"; "print-files"]%string))
    = [seed_region "x.txt"; seed_region "x.txt"]%string /\
  ~ canonical_unordered
      (regions (snd (main (env_with_rg []) no_files ["x.txt"; "x.txt"]%string
                       ["files-from-stdin"; "print-files"]%string))).
Proof.
  assert (E : regions (snd (main (env_with_rg []) no_files ["x.txt"; "x.txt"]%string
                              ["files-from-stdin"; "print-files"]%string))
              = [seed_region "x.txt"; seed_region "x.txt"]%string)
    by (vm_compute; reflexivity).
  split; [exact E |]. rewrite E.
  unfold canonical_unordered. intros H.
  inversion H as [| ? ? Hx _]; subst. inversion Hx as [| ? ? Hxx _]; subst.
  unfold MAX_SAFE_INTEGER in *.
  destruct (Hxx eq_refl) as [(a & b & Ha & Hb & Hab) | (a & b & Ha & Hb & Hab)];
    simpl in Ha, Hb; injection Ha as <-; injection Hb as <-;
    apply Z.leb_le in Hab; vm_compute in Hab; discriminate.
Qed.

(* ------------------------------------------------------------------ *)
(** ** The whole-file seed and its report (claim C6) *)

(** Every line of a file, numbered from [n], as [print-regions] prints
    them. *)
Fixpoint number_lines (fp : string) (n : Z) (ls : list string) : list string :=
  match ls with
  | [] => []
  | l :: ls' => String.concat ":" [fp; Z_to_string n; l] :: number_lines fp (n + 1) ls'
  end.

Lemma length_number_lines fp ls : forall n, length (number_lines fp n ls) = length ls.
Proof. induction ls; intros n; simpl; auto. Qed.

Lemma print_lines_seed fp ls : forall n,
  1 <= n -> n - 1 + Z.of_nat (length ls) <= MAX_SAFE_INTEGER ->
  print_lines (seed_region fp) n ls = number_lines fp n ls.
Proof.
  induction ls as [| l ls IH]; intros n H1 H2; simpl; [done |].
  simpl in H2.
  replace (Z.leb 1 n && Z.leb n MAX_SAFE_INTEGER)%bool with true
    by (symmetry; apply andb_true_intro; split; apply Z.leb_le; lia).
  simpl. f_equal. apply IH; lia.
Qed.

Lemma print_lines_seed_length fp ls : forall n,
  1 <= n -> (length (print_lines (seed_region fp) n ls) <= Z.to_nat (MAX_SAFE_INTEGER + 1 - n))%nat.
Proof.
  induction ls as [| l ls IH]; intros n H1; simpl; [lia |].
  specialize (IH (n + 1) ltac:(lia)).
  destruct (Z.leb 1 n && Z.leb n MAX_SAFE_INTEGER)%bool eqn:E; simpl.
  - apply andb_prop in E as [_ E]. apply Z.leb_le in E. lia.
  - assert (n > MAX_SAFE_INTEGER).
    { destruct (Z.leb_spec n MAX_SAFE_INTEGER); [| lia].
      apply Z.leb_le in H1. rewrite H1 in E. discriminate. }
    lia.
Qed.

Lemma M_iter_emit l st :
  M_iter (fun o => M_modify (emit (Stdout o))) l st =
  (inr tt, mkSt (regions st) (files st) (stdin st) (trace st ++ map Stdout l)).
Proof.
  revert st. induction l as [| o l IH]; intros st; simpl.
  - destruct st; simpl. by rewrite app_nil_r.
  - unfold M_bind, M_modify at 1. rewrite IH. simpl. by rewrite <- app_assoc.
Qed.

(** C6: a first [files-from-stdin] stage adds one region per listed
    path (trimmed, blank lines skipped) with first line 1 and last line
    [Number.MAX_SAFE_INTEGER], the whole-file sentinel of the code, and
    [print-regions] prints every line of such a file, from line 1 to its
    last line.  The hypothesis on the length holds for every file the
    program can read: a file of 2^53 lines or more has at least 8 PiB. *)
Theorem stdin_seed_whole_file (env : Env) (st : St) (fp : string) (ls : list string) :
  files st fp = Some ls ->
  Z.of_nat (length ls) <= MAX_SAFE_INTEGER ->
  run_script env true FilesFromStdin st =
    (inr tt, set_regions (regions st ++ map seed_region (stdin_files (stdin st)))
                         (set_stdin [] st)) /\
  seed_region fp = mkRegion fp (Num 1) (Num MAX_SAFE_INTEGER) [] /\
  trace (snd (print_region (seed_region fp) st)) =
    trace st ++ map Stdout (number_lines fp 1 ls).
Proof.
  intros Hf Hlen. split_and!; [done | done |].
  unfold print_region, readLines. cbv [M_bind M_get M_ret]. simpl. rewrite Hf.
  rewrite M_iter_emit. simpl.
  rewrite print_lines_seed; [done | lia | lia].
Qed.

Definition one_line_fs : FS :=
  fun p => if String.eqb p "x.txt" then Some ["hello"]%string else None.

Lemma stdin_seed_whole_file_witness :
  files (mkSt [] one_line_fs ["x.txt"]%string []) "x.txt"%string = Some ["hello"]%string /\
  Z.of_nat (length ["hello"]%string) <= MAX_SAFE_INTEGER /\
  trace (snd (print_region (seed_region "x.txt") (mkSt [] one_line_fs ["x.txt"]%string [])))
    = [Stdout "x.txt:1:hello"]%string.
Proof.
  assert (H1 : files (mkSt [] one_line_fs ["x.txt"]%string []) "x.txt"%string
               = Some ["hello"]%string) by reflexivity.
  assert (H2 : Z.of_nat (length ["hello"]%string) <= MAX_SAFE_INTEGER)
    by (unfold MAX_SAFE_INTEGER; simpl; lia).
  split_and!; [exact H1 | exact H2 |].
  rewrite (proj2 (proj2 (stdin_seed_whole_file (env_with_rg []) _ _ _ H1 H2))).
  reflexivity.
Defined.

Lemma MAX_SAFE_INTEGER_pos : 0 < MAX_SAFE_INTEGER.
Proof. reflexivity. Qed.

(** In the model, which bounds no file, the report of a seeded region
    stops at line [Number.MAX_SAFE_INTEGER]. *)
Lemma print_lines_seed_incomplete fp ls :
  MAX_SAFE_INTEGER < Z.of_nat (length ls) ->
  print_lines (seed_region fp) 1 ls <> number_lines fp 1 ls.
Proof.
  intros Hl H. apply (f_equal (@length string)) in H.
  rewrite length_number_lines in H.
  pose proof (print_lines_seed_length fp ls 1 ltac:(lia)) as Hb.
  rewrite H in Hb. pose proof MAX_SAFE_INTEGER_pos. lia.
Qed.

(* ------------------------------------------------------------------ *)
(** ** The default report (claim C7) *)

(** C7: when no script is [print-files] or [print-regions], exactly one
    [print-regions] is appended at the end; when one of them is present,
    the list is left as it is. *)
Theorem default_print_appended (scripts : list Script) :
  ((forall s, In s scripts -> s <> PrintFiles /\ s <> PrintRegions) ->
   add_default_print scripts = scripts ++ [PrintRegions]) /\
  ((In PrintFiles scripts \/ In PrintRegions scripts) ->
   add_default_print scripts = scripts).
Proof.
  unfold add_default_print. split; intros H.
  - destruct (existsb is_print scripts) eqn:E; [| done].
    apply existsb_exists in E as (s & Hin & Hs).
    destruct (H s Hin) as [H1 H2].
    destruct s; simpl in Hs; congruence.
  - replace (existsb is_print scripts) with true; [done |].
    symmetry. apply existsb_exists.
    destruct H as [H | H]; eexists; split; eauto.
Qed.

Lemma default_print_appended_witness :
  add_default_print [Rg (Some "foo"%string) (Some ""%string)] =
    [Rg (Some "foo"%string) (Some ""%string); PrintRegions] /\
  add_default_print [Rg (Some "foo"%string) (Some ""%string); PrintFiles] =
    [Rg (Some "foo"%string) (Some ""%string); PrintFiles].
Proof.
  split.
  - refine (proj1 (default_print_appended [Rg (Some "foo"%string) (Some ""%string)]) _).
    intros s [<- | []]. split; discriminate.
  - refine (proj2 (default_print_appended
                     [Rg (Some "foo"%string) (Some ""%string); PrintFiles]) _).
    left. simpl. auto.
Defined.

(* ------------------------------------------------------------------ *)
(** ** Parsing before running (claim C8) *)

Lemma parse_all_fails ss :
  (exists s, In s ss /\ parseScript s = None) ->
  exists s', parse_all ss = inl (UnknownScriptType s').
Proof.
  induction ss as [| s ss IH]; intros (s0 & Hin & Hs0); [done |].
  simpl. destruct (parseScript s) eqn:E; [| eauto].
  destruct Hin as [-> | Hin]; [congruence |].
  destruct (IH (ex_intro _ s0 (conj Hin Hs0))) as [s' ->]. eauto.
Qed.

(** Parsing before running: all script strings are parsed before any
    stage runs, and a string the parser rejects makes [main] fail with
    [UnknownScriptType] in the initial state: no process started, no
    region built, nothing printed.  The parser accepts every string that
    begins with [rg] or [!rg] without checking the rest. *)
Theorem unknown_script_rejected_before_run (env : Env) (fs : FS)
    (input ss : list string) :
  (exists s, In s ss /\ parseScript s = None) ->
  (exists s', main env fs input ss = (inl (UnknownScriptType s'), initial_state fs input)) /\
  (forall s, starts_with "rg" s = true \/ starts_with "!rg" s = true ->
             parseScript s <> None).
Proof.
  intros H. split.
  - destruct (parse_all_fails ss H) as [s' Hs']. exists s'.
    unfold main. rewrite Hs'. done.
  - intros s Hs. unfold parseScript.
    destruct (if starts_with "sed" s then parse_sed s else None); [discriminate |].
    destruct (starts_with "!rg" s) eqn:E1; [discriminate |].
    destruct Hs as [Hs | Hs]; [| congruence].
    rewrite Hs. discriminate.
Qed.

Lemma unknown_script_rejected_before_run_witness :
  (exists s, In s ["rg/foo/"; "sed/s/a"]%string /\ parseScript s = None) /\
  main (env_with_rg []) no_files [] ["rg/foo/"; "sed/s/a"]%string =
    (inl (UnknownScriptType "sed/s/a"), initial_state no_files []).
Proof.
  assert (H : exists s, In s ["rg/foo/"; "sed/s/a"]%string /\ parseScript s = None).
  { exists "sed/s/a"%string. split; [simpl; auto | reflexivity]. }
  split; [exact H |].
  destruct (proj1 (unknown_script_rejected_before_run (env_with_rg []) no_files []
                     ["rg/foo/"; "sed/s/a"]%string H)) as [s' Hs'].
  rewrite Hs'. vm_compute in Hs'. injection Hs' as <-. reflexivity.
Defined.

(** C8 is broken by the code: the malformed script [rg] (no separator, no
    pattern, no flags) is accepted by the parser; in the run
    [files-from-stdin print-files rg] the first two stages execute and
    print [a.txt] before the [rg] stage fails with a [TypeError]
    ([flags.includes] on [undefined], although [RgScript.flags] is
    declared a string and the [!rg] branch defaults it to [''] ). *)
Lemma malformed_rg_runs_earlier_stages :
  parseScript "rg" = Some (Rg None None) /\
  fst (main (env_with_rg []) no_files ["a.txt"]%string
         ["files-from-stdin"; "print-files"; "rg"]%string) = inl TypeError /\
  trace (snd (main (env_with_rg []) no_files ["a.txt"]%string
                ["files-from-stdin"; "print-files"; "rg"]%string)) = [Stdout "a.txt"]%string.
Proof. split_and!; vm_compute; reflexivity. Qed.

(* ------------------------------------------------------------------ *)
(** * Further properties of the code *)

(** ** Splitting and joining on one character *)

Lemma split_char_no c x :
  includes_char c x = false -> split_char c x = [x].
Proof.
  induction x as [| a x IH]; simpl; [done |].
  intros [H1 H2]%orb_false_iff. rewrite H1, IH by done. done.
Qed.

Lemma split_char_app c x y :
  includes_char c x = false ->
  split_char c (x ++ String c y) = x :: split_char c y.
Proof.
  induction x as [| a x IH]; simpl; intros H; [by rewrite Ascii.eqb_refl |].
  apply orb_false_iff in H as [H1 H2]. by rewrite H1, IH.
Qed.

(** [xs.join(c).split(c)] is [xs] when no element contains [c]. *)
Lemma split_char_concat c xs :
  xs <> [] -> Forall (fun x => includes_char c x = false) xs ->
  split_char c (String.concat (String c EmptyString) xs) = xs.
Proof.
  induction xs as [| x xs IH]; intros Hne Hall; [done |].
  inversion Hall as [| ? ? Hx Hxs]; subst.
  destruct xs as [| y xs]; [by apply split_char_no |].
  change (String.concat (String c EmptyString) (x :: y :: xs))
    with (x ++ String c (String.concat (String c EmptyString) (y :: xs)))%string.
  rewrite split_char_app, IH by done. done.
Qed.

Lemma split_char_nonempty c s : split_char c s <> [].
Proof.
  destruct s as [| a s]; simpl; [done |].
  destruct (Ascii.eqb a c); [done |]. destruct (split_char c s); done.
Qed.

Lemma concat_cons_char c a h t :
  String.concat (String c EmptyString) (String a h :: t) =
  String a (String.concat (String c EmptyString) (h :: t)).
Proof. destruct t; done. Qed.

(** [s.split(c).join(c)] is [s]. *)
Lemma concat_split_char c s :
  String.concat (String c EmptyString) (split_char c s) = s.
Proof.
  induction s as [| a s IH]; simpl; [done |].
  destruct (Ascii.eqb a c) eqn:E.
  - apply Ascii.eqb_eq in E as ->.
    destruct (split_char c s) as [| h t] eqn:Es; [by destruct (split_char_nonempty c s) |].
    change (String c (String.concat (String c EmptyString) (h :: t)) = String c s).
    by rewrite IH.
  - destruct (split_char c s) as [| h t] eqn:Es; [by destruct (split_char_nonempty c s) |].
    by rewrite concat_cons_char, IH.
Qed.

Lemma split_char_pieces c s :
  Forall (fun x => includes_char c x = false) (split_char c s).
Proof.
  induction s as [| a s IH]; simpl; [by repeat constructor |].
  destruct (Ascii.eqb a c) eqn:E; [by constructor |].
  destruct (split_char c s) as [| h t]; [by repeat constructor; simpl; rewrite E |].
  inversion IH; subst. constructor; [| done]. simpl. by rewrite E.
Qed.

(** ** [String(n)] read back by [Number] *)

Lemma digit_val_char d : 0 <= d < 10 -> digit_val (digit_char d) = Some d.
Proof.
  intros Hd.
  assert (d = 0 \/ d = 1 \/ d = 2 \/ d = 3 \/ d = 4 \/ d = 5 \/ d = 6 \/ d = 7
          \/ d = 8 \/ d = 9) as H by lia.
  repeat destruct H as [-> | H]; [done .. | subst; done].
Qed.

Definition is_digit_char (a : ascii) : Prop := exists d, 0 <= d < 10 /\ a = digit_char d.

Lemma digit_char_facts a :
  is_digit_char a ->
  is_js_space a = false /\ Ascii.eqb a ":" = false /\ digit_val a <> None.
Proof.
  intros (d & Hd & ->).
  assert (d = 0 \/ d = 1 \/ d = 2 \/ d = 3 \/ d = 4 \/ d = 5 \/ d = 6 \/ d = 7
          \/ d = 8 \/ d = 9) as H by lia.
  repeat destruct H as [-> | H]; [done .. | subst; done].
Qed.

Lemma parse_digits_app acc l1 l2 :
  parse_digits acc (l1 ++ l2) =
  match parse_digits acc l1 with Some a => parse_digits a l2 | None => None end.
Proof.
  revert acc. induction l1 as [| a l1 IH]; intros acc; simpl; [done |].
  destruct (digit_val a); auto.
Qed.

Lemma digits_rev_spec fuel : forall n,
  0 <= n < 10 ^ Z.of_nat fuel ->
  Forall is_digit_char (digits_rev fuel n) /\
  forall acc, parse_digits acc (rev (digits_rev fuel n)) =
              Some (acc * 10 ^ Z.of_nat (length (digits_rev fuel n)) + n).
Proof.
  induction fuel as [| f IH]; intros n Hn.
  - simpl in Hn. simpl. split; [constructor |]. intros acc. f_equal. lia.
  - rewrite Nat2Z.inj_succ, Z.pow_succ_r in Hn by lia.
    cbn [digits_rev].
    destruct (Z.ltb_spec n 10).
    + split; [repeat constructor; exists n; split; [lia | done] |].
      intros acc. cbn [rev app length]. cbn [parse_digits].
      rewrite digit_val_char by lia. cbn [parse_digits]. f_equal.
    + assert (Hq : 0 <= n / 10 < 10 ^ Z.of_nat f).
      { split; [apply Z.div_pos; lia | apply Z.div_lt_upper_bound; lia]. }
      destruct (IH (n / 10) Hq) as [Hd Hp].
      assert (Hr : 0 <= n mod 10 < 10) by (apply Z.mod_pos_bound; lia).
      split; [constructor; [exists (n mod 10); split; [exact Hr | done] | exact Hd] |].
      intros acc. cbn [rev length].
      rewrite parse_digits_app, Hp. cbn [parse_digits].
      rewrite digit_val_char by exact Hr.
      f_equal. rewrite Nat2Z.inj_succ, Z.pow_succ_r by lia.
      pose proof (Z.div_mod n 10 ltac:(lia)) as Hdm.
      set (q := n / 10) in *. set (r := n mod 10) in *.
      set (k := 10 ^ Z.of_nat (length (digits_rev f q))).
      rewrite Hdm. ring.
Qed.

Lemma pos_size_nat_bound p : Z.pos p < 2 ^ Z.of_nat (Pos.size_nat p).
Proof.
  induction p as [p IH | p IH |]; simpl Pos.size_nat; try rewrite Nat2Z.inj_succ, Z.pow_succ_r by lia;
    [rewrite Pos2Z.inj_xI | rewrite Pos2Z.inj_xO | simpl]; lia.
Qed.

Lemma size_fuel_bound n :
  0 <= n -> n < 10 ^ Z.of_nat (S (N.size_nat (Z.to_N n))).
Proof.
  intros Hn. rewrite Nat2Z.inj_succ, Z.pow_succ_r by lia.
  destruct n as [| p | p]; [simpl; lia | | lia].
  simpl. pose proof (pos_size_nat_bound p).
  assert (2 ^ Z.of_nat (Pos.size_nat p) <= 10 ^ Z.of_nat (Pos.size_nat p))
    by (apply Z.pow_le_mono_l; lia).
  lia.
Qed.

Lemma drop_space_digits l :
  Forall is_digit_char l -> drop_space l = l.
Proof.
  destruct l as [| a l]; intros H; [done |]. inversion H; subst. simpl.
  by rewrite (proj1 (digit_char_facts a ltac:(done))).
Qed.

Lemma Number_digits l :
  l <> [] -> Forall is_digit_char l ->
  Number (string_of_list_ascii l) = decimal_literal l.
Proof.
  intros Hne Hl. unfold Number, js_trim.
  rewrite !list_ascii_of_string_of_list_ascii.
  rewrite (drop_space_digits l Hl).
  rewrite (drop_space_digits (rev l) (List.Forall_rev Hl)).
  rewrite rev_involutive.
  destruct l as [| a l]; [done |].
  inversion Hl as [| ? ? Ha _]; subst.
  destruct (digit_char_facts a Ha) as (_ & _ & Hv).
  destruct a as [[] [] [] [] [] [] [] []]; try reflexivity; by destruct Hv.
Qed.

(** The digits of [String(n)]. *)
Lemma Z_to_string_digits n :
  0 <= n ->
  exists l, Z_to_string n = string_of_list_ascii l /\ l <> [] /\
            Forall is_digit_char l /\ parse_digits 0 l = Some n.
Proof.
  intros Hn. unfold Z_to_string.
  destruct (Z.ltb_spec n 0); [lia |].
  set (fuel := S (N.size_nat (Z.to_N n))).
  destruct (digits_rev_spec fuel n ltac:(split; [lia | apply size_fuel_bound; lia]))
    as [Hd Hp].
  exists (rev (digits_rev fuel n)). split_and!; [done | | by apply List.Forall_rev |].
  - unfold fuel. simpl. destruct (n <? 10); simpl; [done |].
    intros Hnil. apply app_eq_nil in Hnil as [_ Hnil]. done.
  - rewrite Hp. f_equal; lia.
Qed.

Lemma Number_Z_to_string n : 0 <= n -> Number (Z_to_string n) = Num n.
Proof.
  intros Hn. destruct (Z_to_string_digits n Hn) as (l & -> & Hne & Hd & Hp).
  rewrite Number_digits by done. unfold decimal_literal.
  destruct l; [done |]. by rewrite Hp.
Qed.

Lemma Z_to_string_no_colon n : 0 <= n -> includes_char ":" (Z_to_string n) = false.
Proof.
  intros Hn. destruct (Z_to_string_digits n Hn) as (l & -> & _ & Hd & _).
  induction l as [| a l IH]; [done |]. inversion Hd; subst. simpl.
  rewrite (proj1 (proj2 (digit_char_facts a ltac:(done)))). auto.
Qed.

(** ** Reading ripgrep's match lines back *)

(** [filepath:lineNumber:text] is read back as its three fields, also when
    the text contains colons. *)
Lemma parseRgLine_fields fp n text :
  includes_char ":" fp = false -> 0 <= n ->
  parseRgLine (fp ++ ":" ++ Z_to_string n ++ ":" ++ text) = mkMatch fp (Num n) text.
Proof.
  intros Hfp Hn.
  change (fp ++ ":" ++ Z_to_string n ++ ":" ++ text)%string
    with (fp ++ String ":" (Z_to_string n ++ String ":" text))%string.
  unfold parseRgLine.
  rewrite split_char_app by done.
  rewrite split_char_app by (by apply Z_to_string_no_colon).
  change (mkMatch fp (Number (Z_to_string n)) (String.concat ":" (split_char ":" text))
          = mkMatch fp (Num n) text).
  by rewrite Number_Z_to_string, concat_split_char.
Qed.

(** The output of [rg --line-number] for the lines [ts] of file [fp]
    matched from line [n] on, one match per line. *)
Fixpoint rg_output (fp : string) (n : Z) (ts : list string) : list string :=
  match ts with
  | [] => []
  | t :: ts' => (fp ++ ":" ++ Z_to_string n ++ ":" ++ t)%string :: rg_output fp (n + 1) ts'
  end.

Lemma map_parseRgLine_rg_output fp ts : forall n,
  includes_char ":" fp = false -> 0 <= n ->
  map parseRgLine (rg_output fp n ts) = expand_from fp (Num n) ts.
Proof.
  induction ts as [| t ts IH]; intros n Hfp Hn; simpl; [done |].
  rewrite parseRgLine_fields, IH by (done || lia). done.
Qed.

Lemma coalesce_length ms : forall o,
  (length (coalesce o ms) <= length ms + (if o then 1 else 0))%nat.
Proof.
  induction ms as [| m ms IH]; intros o; simpl; [destruct o; simpl; lia |].
  destruct o as [r |]; [destruct (extends r m) |];
    [specialize (IH (Some (extend r m))) | simpl; specialize (IH (Some (open_region m)))
    | specialize (IH (Some (open_region m)))]; simpl in IH; lia.
Qed.

Lemma coalesce_maximal ms : forall o pre r1 r2 post,
  coalesce o ms = pre ++ r1 :: r2 :: post ->
  ~ (filepath r2 = filepath r1 /\
     js_strict_eq (firstLineNumber r2) (js_add (lastLineNumber r1) (Num 1)) = true).
Proof.
  induction ms as [| m ms IH]; intros o pre r1 r2 post H; simpl in H.
  - apply (f_equal (@length RgRegion)) in H. rewrite length_app in H.
    destruct o; simpl in H; lia.
  - destruct o as [r |]; [| by eapply IH].
    destruct (extends r m) eqn:E; [by eapply IH |].
    destruct pre as [| x pre]; simpl in H; [| injection H as _ H; by eapply IH].
    injection H as <- Hrest.
    destruct (coalesce_head ms (open_region m)) as (r1' & rest & Heq & Hf & Hl).
    rewrite Heq in Hrest. injection Hrest as <- _. simpl in Hf, Hl.
    rewrite Hf, Hl. intros [Hfp Hn].
    unfold extends in E. rewrite Hfp, String.eqb_refl, Hn in E. discriminate.
Qed.

(** ** Parsing the script strings *)

Lemma starts_with_app p s : starts_with p (p ++ s) = true.
Proof.
  unfold starts_with. induction p as [| a p IH]; simpl; [by destruct s |].
  destruct (ascii_dec a a); [done | congruence].
Qed.

Lemma parseScript_Sed s c p r f :
  parseScript s = Some (Sed c p r f) -> parse_sed s = Some (Sed c p r f).
Proof.
  unfold parseScript. cbv zeta.
  destruct (starts_with "sed" s); [destruct (parse_sed s) eqn:E; [congruence |] |];
    repeat case_match; congruence.
Qed.

Lemma parse_sed_sound s c p r f :
  parse_sed s = Some (Sed c p r f) ->
  exists fn, s = ("sed" ++ String c (fn ++ String c (p ++ String c (r ++ String c f))))%string /\
             Forall (fun x => includes_char c x = false) [fn; p; r; f] /\ p <> EmptyString.
Proof.
  unfold parse_sed.
  destruct (char_at s 3) as [c' |] eqn:Ec; [| discriminate]. cbv zeta.
  pose proof (split_char_pieces c' s) as Hpieces.
  assert (Hpiece : forall i x, nth_error (split_char c' s) i = Some x -> includes_char c' x = false).
  { intros i x Hi. apply nth_error_In in Hi.
    exact (proj1 (List.Forall_forall _ _) Hpieces x Hi). }
  destruct (nth_error (split_char c' s) 2) as [p' |] eqn:E2; [| by rewrite andb_false_l].
  destruct (nth_error (split_char c' s) 3) as [r' |] eqn:E3;
  destruct (nth_error (split_char c' s) 4) as [f' |] eqn:E4;
  destruct (andb _ _) eqn:Eb; try discriminate.
  intros [= <- <- <- <-].
  apply andb_prop in Eb as [Ht Heq]. apply String.eqb_eq in Heq.
  destruct (nth_error (split_char c' s) 1) as [fn |] eqn:E1;
    [exists fn | exists EmptyString]; (split_and!;
    [ symmetry; exact Heq
    | repeat constructor; eauto
    | simpl in Ht; intros ->; discriminate ]).
Qed.

Lemma parse_sed_complete c fn p r f :
  includes_char c "sed" = false ->
  Forall (fun x => includes_char c x = false) [fn; p; r; f] -> p <> EmptyString ->
  parseScript ("sed" ++ String c (fn ++ String c (p ++ String c (r ++ String c f))))
  = Some (Sed c p r f).
Proof.
  intros Hsed Hall Hp.
  inversion Hall as [| ? ? Hfn Hall1]; subst.
  inversion Hall1 as [| ? ? Hp' Hall2]; subst.
  inversion Hall2 as [| ? ? Hr Hall3]; subst.
  inversion Hall3 as [| ? ? Hf _]; subst.
  set (s := ("sed" ++ String c (fn ++ String c (p ++ String c (r ++ String c f))))%string).
  assert (Hsplit : split_char c s = ["sed"; fn; p; r; f]%string).
  { unfold s. rewrite !split_char_app by done. by rewrite split_char_no. }
  assert (Hparse : parse_sed s = Some (Sed c p r f)).
  { unfold parse_sed.
    replace (char_at s 3) with (Some c) by reflexivity. cbv zeta.
    rewrite Hsplit. cbn [nth_error].
    replace (js_join (String c EmptyString)
               [Some "sed"%string; Some fn; Some p; Some r; Some f]) with s by reflexivity.
    rewrite String.eqb_refl. simpl. apply String.eqb_neq in Hp. by rewrite Hp. }
  unfold parseScript. cbv zeta.
  replace (starts_with "sed" s) with true by (symmetry; apply starts_with_app).
  by rewrite Hparse.
Qed.

Lemma parse_rg_concat c xs :
  includes_char c "rg" = false -> xs <> [] ->
  Forall (fun x => includes_char c x = false) xs ->
  parseScript ("rg" ++ String c (String.concat (String c EmptyString) xs))
  = Some (Rg (nth_error xs 0) (nth_error xs 1)).
Proof.
  intros Hc Hne Hxs.
  set (s := ("rg" ++ String c (String.concat (String c EmptyString) xs))%string).
  assert (Hs : split_char c s = "rg"%string :: xs).
  { unfold s. rewrite split_char_app by done. by rewrite split_char_concat. }
  unfold parseScript. cbv zeta.
  replace (starts_with "sed" s) with false by reflexivity.
  replace (starts_with "!rg" s) with false by reflexivity.
  replace (starts_with "rg" s) with true by reflexivity.
  replace (char_at s 2) with (Some c) by reflexivity.
  unfold js_split. by rewrite Hs.
Qed.

Lemma parse_rg_negated_concat c xs :
  includes_char c "!rg" = false -> xs <> [] ->
  Forall (fun x => includes_char c x = false) xs ->
  parseScript ("!rg" ++ String c (String.concat (String c EmptyString) xs))
  = Some (RgNegated (nth_error xs 0) (default EmptyString (nth_error xs 1))).
Proof.
  intros Hc Hne Hxs.
  set (s := ("!rg" ++ String c (String.concat (String c EmptyString) xs))%string).
  assert (Hs : split_char c s = "!rg"%string :: xs).
  { unfold s. rewrite split_char_app by done. by rewrite split_char_concat. }
  unfold parseScript. cbv zeta.
  replace (starts_with "sed" s) with false by reflexivity.
  replace (starts_with "!rg" s) with true by reflexivity.
  replace (char_at s 3) with (Some c) by reflexivity.
  unfold js_split. rewrite Hs.
  destruct xs as [| x0 [| f xs']]; [done | done |]. simpl.
  destruct (String.eqb f EmptyString) eqn:E; [| done].
  apply String.eqb_eq in E. by subst.
Qed.

Lemma parse_glob_concat c x rest :
  includes_char c "glob" = false ->
  Forall (fun y => includes_char c y = false) (x :: rest) ->
  parseScript ("glob" ++ String c (String.concat (String c EmptyString) (x :: rest)))
  = if String.eqb x EmptyString then None else Some (Glob x).
Proof.
  intros Hc Hxs.
  set (s := ("glob" ++ String c (String.concat (String c EmptyString) (x :: rest)))%string).
  assert (Hs : split_char c s = "glob"%string :: x :: rest).
  { unfold s. rewrite split_char_app by done. by rewrite split_char_concat. }
  unfold parseScript. cbv zeta.
  replace (starts_with "sed" s) with false by reflexivity.
  replace (starts_with "!rg" s) with false by reflexivity.
  replace (starts_with "rg" s) with false by reflexivity.
  replace (String.eqb s "print-files") with false by reflexivity.
  replace (String.eqb s "print-regions") with false by reflexivity.
  replace (starts_with "glob" s) with true by reflexivity.
  replace (char_at s 4) with (Some c) by reflexivity.
  replace (String.eqb s "files-from-stdin") with false by reflexivity.
  unfold js_split. rewrite Hs. cbn [nth_error]. simpl.
  by destruct (String.eqb x EmptyString).
Qed.

(** ** Lemmas on the driver *)

Lemma set_dedup_in seen l x :
  In x (set_dedup seen l) <-> In x l /\ x ∉ seen.
Proof.
  revert seen. induction l as [| a l IH]; intros seen; simpl; [tauto |].
  destruct (decide (a ∈ seen)) as [Ha | Ha]; simpl; rewrite ?IH.
  - split; [intros [? ?]; auto |]. intros [[<- | ?] ?]; [done | auto].
  - rewrite elem_of_union, elem_of_singleton. split.
    + intros [<- | [? Hn]]; [auto |]. split; [auto | tauto].
    + intros [[<- | ?] Hn]; [auto |].
      destruct (decide (x = a)) as [-> | Hxa]; [auto | right; split; [done | tauto]].
Qed.

Lemma set_dedup_nodup seen l : NoDup (set_dedup seen l).
Proof.
  revert seen. induction l as [| a l IH]; intros seen; simpl; [constructor |].
  destruct (decide (a ∈ seen)); [done |]. constructor; [| done].
  rewrite list_elem_of_In, set_dedup_in. intros [_ H]. apply H. set_solver.
Qed.

Lemma set_dedup_sublist seen l : set_dedup seen l `sublist_of` l.
Proof.
  revert seen. induction l as [| a l IH]; intros seen; simpl; [constructor |].
  destruct (decide (a ∈ seen)); [by apply sublist_cons | by apply sublist_skip].
Qed.

Lemma print_lines_window fp a b xs ls : forall n,
  print_lines (mkRegion fp (Num a) (Num b) xs) n ls =
  number_lines fp (Z.max a n)
    (firstn (Z.to_nat (b - Z.max a n + 1)) (skipn (Z.to_nat (Z.max a n - n)) ls)).
Proof.
  induction ls as [| l ls IH]; intros n; simpl.
  - by rewrite skipn_nil, firstn_nil.
  - rewrite IH.
    destruct (Z.leb_spec a n); [destruct (Z.leb_spec n b) |]; simpl.
    + rewrite (Z.max_r a (n + 1)), (Z.max_r a n) by lia.
      replace (n + 1 - (n + 1)) with 0 by lia. replace (n - n) with 0 by lia.
      replace (Z.to_nat (b - n + 1)) with (S (Z.to_nat (b - (n + 1) + 1))) by lia.
      done.
    + rewrite (Z.max_r a (n + 1)), (Z.max_r a n) by lia.
      replace (Z.to_nat (b - (n + 1) + 1)) with 0%nat by lia.
      replace (Z.to_nat (b - n + 1)) with 0%nat by lia.
      done.
    + rewrite (Z.max_l a (n + 1)), (Z.max_l a n) by lia.
      replace (Z.to_nat (a - n)) with (S (Z.to_nat (a - (n + 1)))) by lia.
      done.
Qed.

Lemma print_lines_nan r ls : forall n,
  firstLineNumber r = NaN \/ lastLineNumber r = NaN -> print_lines r n ls = [].
Proof.
  induction ls as [| l ls IH]; intros n Hr; simpl; [done |].
  rewrite IH by done.
  destruct Hr as [-> | ->]; simpl; [done | by rewrite andb_false_r].
Qed.

Lemma print_region_ok r st ls :
  files st (filepath r) = Some ls ->
  print_region r st =
    (inr tt, mkSt (regions st) (files st) (stdin st) (trace st ++ map Stdout (print_lines r 1 ls))).
Proof.
  intros H. unfold print_region, readLines. cbv [M_bind M_get M_ret]. rewrite H.
  apply M_iter_emit.
Qed.

Lemma print_region_fail r st :
  files st (filepath r) = None -> print_region r st = (inl ReadFailure, st).
Proof.
  intros H. unfold print_region, readLines. cbv [M_bind M_get M_ret M_fail]. by rewrite H.
Qed.

(** The lines [print-regions] prints for the regions [rs]. *)
Definition region_report (fs : FS) (rs : list RgRegion) : list string :=
  concat (map (fun r => print_lines r 1 (default [] (fs (filepath r)))) rs).

Lemma M_iter_print_ok rs : forall st,
  (forall r, In r rs -> files st (filepath r) <> None) ->
  M_iter print_region rs st =
    (inr tt, mkSt (regions st) (files st) (stdin st)
               (trace st ++ map Stdout (region_report (files st) rs))).
Proof.
  induction rs as [| r rs IH]; intros st Hf; simpl.
  - destruct st; simpl. by rewrite app_nil_r.
  - destruct (files st (filepath r)) as [ls |] eqn:E;
      [| exfalso; apply (Hf r); [left | ]; done].
    unfold M_bind. rewrite (print_region_ok r st ls E).
    rewrite IH by (intros r' Hr'; apply Hf; by right).
    simpl. unfold region_report. simpl. rewrite E. simpl.
    by rewrite map_app, app_assoc.
Qed.

Lemma M_iter_print_fail pre r post : forall st,
  (forall r', In r' pre -> files st (filepath r') <> None) ->
  files st (filepath r) = None ->
  M_iter print_region (pre ++ r :: post) st =
    (inl ReadFailure, mkSt (regions st) (files st) (stdin st)
                        (trace st ++ map Stdout (region_report (files st) pre))).
Proof.
  induction pre as [| r0 pre IH]; intros st Hpre Hr; simpl.
  - unfold M_bind. rewrite print_region_fail by done.
    destruct st; simpl. by rewrite app_nil_r.
  - destruct (files st (filepath r0)) as [ls |] eqn:E;
      [| exfalso; apply (Hpre r0); [left | ]; done].
    unfold M_bind. rewrite (print_region_ok r0 st ls E).
    rewrite IH; [| intros r' Hr'; apply Hpre; by right | done].
    simpl. unfold region_report. simpl. rewrite E. simpl.
    by rewrite map_app, app_assoc.
Qed.

(** The [sed] invocation for region [r]. *)
Definition sed_exec (sep : ascii) (p rep fl : string) (r : RgRegion) : event :=
  Exec "sed" (map Some (sed_args r sep p rep fl)).

Lemma sedRegion_ok env r sep p rep fl st fs' :
  sed_process env (sed_args r sep p rep fl) (files st) = Some fs' ->
  sedRegion env r sep p rep fl st =
    (inr tt, set_files fs' (emit (sed_exec sep p rep fl r) st)).
Proof.
  intros H. unfold sedRegion. cbv [M_bind M_get M_modify]. simpl. by rewrite H.
Qed.

Lemma M_iter_sed_ok env sep p rep fl rs : forall st,
  (forall args fs, sed_process env args fs <> None) ->
  fst (M_iter (fun r => sedRegion env r sep p rep fl) rs st) = inr tt /\
  regions (snd (M_iter (fun r => sedRegion env r sep p rep fl) rs st)) = regions st /\
  trace (snd (M_iter (fun r => sedRegion env r sep p rep fl) rs st)) =
    trace st ++ map (sed_exec sep p rep fl) rs.
Proof.
  induction rs as [| r rs IH]; intros st Hsed; simpl.
  - by rewrite app_nil_r.
  - unfold M_bind.
    destruct (sed_process env (sed_args r sep p rep fl) (files st)) as [fs' |] eqn:E;
      [| by destruct (Hsed _ _ E)].
    rewrite (sedRegion_ok env r sep p rep fl st fs' E). cbv beta iota.
    destruct (IH (set_files fs' (emit (sed_exec sep p rep fl r) st)) Hsed) as (H1 & H2 & H3).
    split_and!; [exact H1 | by rewrite H2 | rewrite H3; simpl; by rewrite <- app_assoc].
Qed.

Lemma group_by_file_acc_none rs : forall (acc : gmap string (list RgRegion)) f,
  fold_left (fun (m : gmap string (list RgRegion)) r =>
               <[filepath r := default [] (m !! filepath r) ++ [r]]> m) rs acc !! f = None <->
  acc !! f = None /\ forall r, In r rs -> filepath r <> f.
Proof.
  induction rs as [| r rs IH]; intros acc f; simpl.
  - split; [intros H; split; [done | by intros ? []] | by intros [? _]].
  - rewrite IH, lookup_insert_None. split.
    + intros [[Ha Hne] Hrs]. split; [done |]. intros r' [<- | Hr']; auto.
    + intros [Ha Hrs]. split_and!; [done | apply Hrs; auto | intros r' Hr'; apply Hrs; auto].
Qed.

(** Standard output is untouched: every event is a process start. *)
Definition no_stdout (tr : list event) : Prop :=
  Forall (fun e => match e with Stdout _ => False | Exec _ _ => True end) tr.

(** The stages that can put regions into an empty set, as the first stage. *)
Definition seeds (s : Script) : bool :=
  match s with Rg _ _ | FilesFromStdin => true | _ => false end.

Definition empty_inv (st : St) : Prop := regions st = [] /\ no_stdout (trace st).

Lemma executeRg_inv env p f fs st :
  empty_inv st -> empty_inv (snd (executeRg env p f fs st)).
Proof.
  intros [Hr Ht]. unfold executeRg. destruct f as [f |]; [| done].
  cbv [M_bind M_modify M_ret M_fail].
  destruct (rg_process env _); simpl; (split; [done |]);
    apply Forall_app; (split; [done | repeat constructor]).
Qed.

Lemma stage_keeps_empty env b s st :
  (b = true -> seeds s = false) -> empty_inv st -> empty_inv (snd (run_script env b s st)).
Proof.
  intros Hs Hinv. pose proof Hinv as [Hr Ht].
  destruct s as [p f | sep p rep fl | | | g | p f |]; unfold run_script.
  - destruct b; [by specialize (Hs eq_refl) |].
    cbv [M_bind M_get].
    pose proof (executeRg_inv env p f (Some (set_dedup ∅ (map filepath (regions st)))) st Hinv)
      as Hinv'.
    destruct (executeRg env p f _ st) as [[e | ls] st1]; [done |].
    rewrite filter_regions_run. destruct Hinv' as [Hr1 Ht1]. simpl in Hr1.
    split; [simpl; by rewrite Hr1 | done].
  - cbv [M_bind M_get]. rewrite Hr. done.
  - cbv [M_bind M_get]. rewrite Hr. done.
  - cbv [M_bind M_get]. rewrite Hr. done.
  - rewrite filter_regions_run. split; [simpl; by rewrite Hr | done].
  - cbv [M_bind M_get].
    match goal with |- context [executeRg env p (Some f) ?fs st] =>
      pose proof (executeRg_inv env p (Some f) fs st Hinv) as Hinv';
      destruct (executeRg env p (Some f) fs st) as [[e | ls] st1] end; [done |].
    rewrite filter_regions_run. destruct Hinv' as [Hr1 Ht1]. simpl in Hr1.
    split; [simpl; by rewrite Hr1 | done].
  - destruct b; [by specialize (Hs eq_refl) |].
    cbv [M_bind M_get readFilesFromStdin M_modify M_ret]. simpl.
    split; [by rewrite Hr | done].
Qed.

Lemma run_from_keeps_empty env ss : forall i st,
  (i = 0%nat -> forall s, hd_error ss = Some s -> seeds s = false) ->
  empty_inv st -> empty_inv (snd (run_from env i ss st)).
Proof.
  induction ss as [| s ss IH]; intros i st Hs Hinv; simpl; [done |].
  unfold M_bind.
  pose proof (stage_keeps_empty env (Nat.eqb i 0) s st) as Hstage.
  destruct (run_script env (Nat.eqb i 0) s st) as [[e | []] st1]; simpl in Hstage |- *.
  - apply Hstage; [| done]. intros Hi. apply Nat.eqb_eq in Hi. by apply (Hs Hi).
  - apply IH; [done |]. apply Hstage; [| done].
    intros Hi. apply Nat.eqb_eq in Hi. by apply (Hs Hi).
Qed.

Lemma hd_add_default_print scripts s :
  hd_error (add_default_print scripts) = Some s ->
  hd_error scripts = Some s \/ (scripts = [] /\ s = PrintRegions).
Proof.
  unfold add_default_print. destruct (existsb is_print scripts); [auto |].
  destruct scripts as [| s0 scripts]; simpl; intros [= <-]; auto.
Qed.

Lemma rg_args_flags p f fs :
  rg_args p f fs = rg_args p (if includes_char "s" f then "s" else "") fs.
Proof. unfold rg_args. by destruct (includes_char "s" f). Qed.

(* ------------------------------------------------------------------ *)
(** ** The coalescer [rgLinesToRegions] *)

(** The coalescer loses, invents and reorders no match: expanding every
    region back into one match per line gives the parsed input lines, in
    order. *)
Theorem rgLinesToRegions_expand (ls : list string) :
  concat (map expand (rgLinesToRegions ls)) = map parseRgLine ls.
Proof. unfold rgLinesToRegions. by rewrite coalesce_concat_expand by discriminate. Qed.

(** Every region of the coalescer holds at least one line, and its bounds
    agree with its lines: [lastLineNumber = firstLineNumber + lines.length - 1]
    when the first line number is a number, and a region whose first line
    number is [NaN] has [NaN] as last line number and a single line. *)
Theorem rgLinesToRegions_shape (ls : list string) (r : RgRegion) :
  In r (rgLinesToRegions ls) ->
  lines r <> [] /\
  (forall a, firstLineNumber r = Num a ->
             lastLineNumber r = Num (a + Z.of_nat (length (lines r)) - 1)) /\
  (firstLineNumber r = NaN -> lastLineNumber r = NaN /\ length (lines r) = 1%nat).
Proof.
  intros Hin.
  pose proof (proj1 (List.Forall_forall _ _) (coalesce_None_wf (map parseRgLine ls)) r Hin)
    as Hwf.
  unfold region_wf in Hwf.
  destruct (firstLineNumber r) as [| a0] eqn:E.
  - destruct Hwf as [Hl Hn]. split_and!; [by destruct (lines r) | done | done].
  - destruct Hwf as [Hne Hl]. split_and!; [done | by intros a [= <-] | done].
Qed.

Lemma rgLinesToRegions_shape_witness :
  In (mkRegion "a" (Num 1) (Num 2) ["x"; "y"]) (rgLinesToRegions ["a:1:x"; "a:2:y"])%string /\
  lines (mkRegion "a" (Num 1) (Num 2) ["x"; "y"])%string <> [].
Proof.
  assert (H : In (mkRegion "a" (Num 1) (Num 2) ["x"; "y"])
                 (rgLinesToRegions ["a:1:x"; "a:2:y"])%string)
    by (vm_compute; left; reflexivity).
  split; [exact H | exact (proj1 (rgLinesToRegions_shape _ _ H))].
Defined.

(** There are never more regions than match lines, and there is no region
    exactly when there is no match line. *)
Theorem rgLinesToRegions_count (ls : list string) :
  (length (rgLinesToRegions ls) <= length ls)%nat /\
  (rgLinesToRegions ls = [] <-> ls = []).
Proof.
  unfold rgLinesToRegions. split.
  - pose proof (coalesce_length (map parseRgLine ls) None) as H.
    rewrite length_map in H. simpl in H. lia.
  - split; [| by intros ->].
    destruct ls as [| l ls]; [done |]. simpl.
    destruct (coalesce_head (map parseRgLine ls) (open_region (parseRgLine l)))
      as (r1 & rest & -> & _). discriminate.
Qed.

(** Merging is maximal: of two consecutive regions of the output, the
    second never continues the first, i.e. it is never in the same file
    starting on the line right after the first one's last line. *)
Theorem rgLinesToRegions_maximal (ls : list string) (pre post : list RgRegion)
    (r1 r2 : RgRegion) :
  rgLinesToRegions ls = pre ++ r1 :: r2 :: post ->
  ~ (filepath r2 = filepath r1 /\
     js_strict_eq (firstLineNumber r2) (js_add (lastLineNumber r1) (Num 1)) = true).
Proof. apply coalesce_maximal. Qed.

Lemma rgLinesToRegions_maximal_witness :
  rgLinesToRegions ["a:1:x"; "a:3:y"]%string =
    [] ++ mkRegion "a" (Num 1) (Num 1) ["x"] :: mkRegion "a" (Num 3) (Num 3) ["y"] :: []
    /\ ~ ("a" = "a" /\ js_strict_eq (Num 3) (js_add (Num 1) (Num 1)) = true)%string.
Proof.
  assert (H : rgLinesToRegions ["a:1:x"; "a:3:y"]%string =
    [] ++ mkRegion "a" (Num 1) (Num 1) ["x"] :: mkRegion "a" (Num 3) (Num 3) ["y"] :: [])
    by reflexivity.
  split; [exact H | exact (rgLinesToRegions_maximal _ _ _ _ _ H)].
Defined.

(** A line [filepath:lineNumber:text] of ripgrep, with a path free of
    colons and a non-negative line number, is read back as exactly its
    path, number and text; colons in the text are kept. *)
Theorem parseRgLine_roundtrip (fp : string) (n : Z) (text : string) :
  includes_char ":" fp = false -> 0 <= n ->
  parseRgLine (fp ++ ":" ++ Z_to_string n ++ ":" ++ text) = mkMatch fp (Num n) text.
Proof. apply parseRgLine_fields. Qed.

Lemma parseRgLine_roundtrip_witness :
  includes_char ":" "src/a.ts" = false /\ 0 <= 42 /\
  parseRgLine ("src/a.ts" ++ ":" ++ Z_to_string 42 ++ ":" ++ "x: y")
    = mkMatch "src/a.ts" (Num 42) "x: y".
Proof.
  split_and!; [reflexivity | lia |].
  apply parseRgLine_roundtrip; [reflexivity | lia].
Defined.

(** The match lines ripgrep prints for the consecutive lines [a], [a + 1],
    ... of one file (path free of colons) become one single region from
    [a] to [a + k - 1] holding the [k] texts. *)
Theorem consecutive_matches_one_region (fp : string) (a : Z) (ts : list string) :
  includes_char ":" fp = false -> 0 <= a -> ts <> [] ->
  rgLinesToRegions (rg_output fp a ts) =
    [mkRegion fp (Num a) (Num (a + Z.of_nat (length ts) - 1)) ts].
Proof.
  intros Hfp Ha Hne. destruct ts as [| t ts]; [done |].
  unfold rgLinesToRegions. rewrite map_parseRgLine_rg_output by done.
  cbn [expand_from map coalesce].
  unfold open_region; cbn [filepath firstLineNumber lines].
  change (coalesce (Some (mkRegion fp (Num a) (Num a) [t]))
            (expand_from (filepath (mkRegion fp (Num a) (Num a) [t])) (Num (a + 1)) ts)
          = [mkRegion fp (Num a) (Num (a + Z.of_nat (length (t :: ts)) - 1)) (t :: ts)]).
  rewrite (coalesce_expand_run ts (mkRegion fp (Num a) (Num a) [t]) a eq_refl).
  replace (a + Z.of_nat (length ts)) with (a + Z.of_nat (length (t :: ts)) - 1)
    by (cbn [length]; lia).
  reflexivity.
Qed.

Lemma consecutive_matches_one_region_witness :
  rgLinesToRegions (rg_output "f.ts" 7 ["a"; "b"; "c"])%string =
    [mkRegion "f.ts" (Num 7) (Num 9) ["a"; "b"; "c"]]%string.
Proof.
  rewrite (consecutive_matches_one_region "f.ts" 7 ["a"; "b"; "c"]%string
             eq_refl ltac:(lia) ltac:(discriminate)).
  reflexivity.
Defined.

(* ------------------------------------------------------------------ *)
(** ** The parser [parseScript] *)

(** A [sed] script is accepted exactly when it reads
    [sed<c>function<c>pattern<c>replacement<c>flags], [c] its fourth
    character, with no part containing [c] and a non-empty pattern (for a
    separator that does not occur in [sed]); the function part is not kept
    in the parsed script. *)
Theorem sed_script_form (s : string) (c : ascii) (p r f : string) :
  includes_char c "sed" = false ->
  parseScript s = Some (Sed c p r f) <->
  exists fn, s = ("sed" ++ String c (fn ++ String c (p ++ String c (r ++ String c f))))%string /\
             Forall (fun x => includes_char c x = false) [fn; p; r; f] /\ p <> EmptyString.
Proof.
  intros Hc. split.
  - intros H. by apply parse_sed_sound, parseScript_Sed.
  - intros (fn & -> & Hall & Hp). by apply parse_sed_complete.
Qed.

Lemma sed_script_form_witness :
  parseScript "sed/y/var /let /g" = Some (Sed "/" "var " "let " "g").
Proof.
  apply (proj2 (sed_script_form "sed/y/var /let /g" "/" "var " "let " "g" eq_refl)).
  exists "y"%string. split_and!; [reflexivity | repeat constructor | discriminate].
Defined.

(** An [rg] script [rg<c>x0<c>x1<c>...] (separator [c] not in [rg], no
    part containing it) is a search for the pattern [x0] with the flags
    [x1]; parts after the second are dropped, so a pattern cannot contain
    the separator, and a missing flags part is [undefined]. *)
Theorem rg_script_segments (c : ascii) (xs : list string) :
  includes_char c "rg" = false -> xs <> [] ->
  Forall (fun x => includes_char c x = false) xs ->
  parseScript ("rg" ++ String c (String.concat (String c EmptyString) xs))
  = Some (Rg (nth_error xs 0) (nth_error xs 1)).
Proof. apply parse_rg_concat. Qed.

Lemma rg_script_segments_witness :
  parseScript "rg/a/b/c" = Some (Rg (Some "a"%string) (Some "b"%string)).
Proof.
  exact (rg_script_segments "/" ["a"; "b"; "c"]%string eq_refl ltac:(discriminate)
           ltac:(repeat constructor)).
Defined.

(** A [!rg] script [!rg<c>x0<c>x1<c>...] (separator [c] not in [!rg], no
    part containing it) is a negated search for the
    pattern [x0] with the flags [x1], or the empty flags when that part
    is missing; further parts are dropped. *)
Theorem rg_negated_script_segments (c : ascii) (xs : list string) :
  includes_char c "!rg" = false -> xs <> [] ->
  Forall (fun x => includes_char c x = false) xs ->
  parseScript ("!rg" ++ String c (String.concat (String c EmptyString) xs))
  = Some (RgNegated (nth_error xs 0) (default EmptyString (nth_error xs 1))).
Proof. apply parse_rg_negated_concat. Qed.

Lemma rg_negated_script_segments_witness :
  parseScript "!rg/test" = Some (RgNegated (Some "test"%string) "").
Proof.
  exact (rg_negated_script_segments "/" ["test"]%string eq_refl ltac:(discriminate)
           ltac:(repeat constructor)).
Defined.

(** A [glob] script [glob<c>x<c>...] (separator [c] not in [glob], no
    part containing it) filters with the pattern [x] alone,
    everything from the next separator on being dropped; an empty [x]
    makes the script unknown. *)
Theorem glob_script_segments (c : ascii) (x : string) (rest : list string) :
  includes_char c "glob" = false ->
  Forall (fun y => includes_char c y = false) (x :: rest) ->
  parseScript ("glob" ++ String c (String.concat (String c EmptyString) (x :: rest)))
  = if String.eqb x EmptyString then None else Some (Glob x).
Proof. apply parse_glob_concat. Qed.

Lemma glob_script_segments_witness :
  parseScript "glob/src/**/*" = Some (Glob "src").
Proof.
  exact (glob_script_segments "/" "src" ["**"; "*"]%string eq_refl
           ltac:(repeat constructor)).
Defined.

(* ------------------------------------------------------------------ *)
(** ** The search stages *)

(** An [rg] script without a flags part, [rg<c>pattern] (separator [c]
    not in [rg] nor in the pattern), is accepted by
    the parser with undefined flags, and its stage fails with a
    [TypeError] in every position before any process is started; as the
    first stage it has already emptied the region set. *)
Theorem rg_without_flags_type_error (env : Env) (c : ascii) (p : string) :
  includes_char c "rg" = false -> includes_char c p = false ->
  parseScript ("rg" ++ String c p) = Some (Rg (Some p) None) /\
  forall isFirst st,
    run_script env isFirst (Rg (Some p) None) st =
      (inl TypeError, if isFirst then set_regions [] st else st).
Proof.
  intros Hc Hp. split.
  - exact (parse_rg_concat c [p] Hc ltac:(discriminate) ltac:(repeat constructor; assumption)).
  - intros [|] st; reflexivity.
Qed.

Lemma rg_without_flags_type_error_witness :
  parseScript "rg/foo" = Some (Rg (Some "foo"%string) None) /\
  run_script (env_with_rg []) true (Rg (Some "foo"%string) None) sample_state =
    (inl TypeError, set_regions [] sample_state).
Proof.
  destruct (rg_without_flags_type_error (env_with_rg []) "/" "foo" eq_refl eq_refl) as [H1 H2].
  split; [exact H1 | exact (H2 true sample_state)].
Defined.

(** The flags of a search stage only matter through the letter [s]: a
    positive or negated search with flags [f] runs exactly as with the
    flags ["s"] when [f] contains [s] and as with no flags otherwise. *)
Theorem search_flags_only_s (env : Env) (isFirst : bool) (p : option string) (f : string)
    (st : St) :
  run_script env isFirst (Rg p (Some f)) st =
    run_script env isFirst (Rg p (Some (if includes_char "s" f then "s" else ""))) st /\
  run_script env isFirst (RgNegated p f) st =
    run_script env isFirst (RgNegated p (if includes_char "s" f then "s" else "")) st.
Proof.
  assert (H : forall fs, rg_args p f fs = rg_args p (if includes_char "s" f then "s" else "") fs)
    by (intros; apply rg_args_flags).
  split; destruct isFirst; cbv [run_script M_bind M_get M_modify executeRg];
    rewrite !H; reflexivity.
Qed.

(** On an empty region set, a chained search and a negated search start
    [rg] without any file argument, so that it searches the whole working
    directory, and the region set stays empty. *)
Theorem search_on_empty_set (env : Env) (isFirst : bool) (st : St) (p : option string)
    (f : string) (out : list string) :
  regions st = [] -> rg_process env (rg_args p f None) = Some out ->
  run_script env false (Rg p (Some f)) st = (inr tt, emit (Exec "rg" (rg_args p f None)) st) /\
  run_script env isFirst (RgNegated p f) st = (inr tt, emit (Exec "rg" (rg_args p f None)) st).
Proof.
  intros Hr Hout. destruct st as [rs fs0 inp tr]. simpl in Hr. subst rs.
  assert (Hnil : rg_args p f (Some []) = rg_args p f None) by reflexivity.
  split; cbv [run_script M_bind M_get executeRg M_modify M_ret]; simpl;
    rewrite ?Hnil, Hout; reflexivity.
Qed.

Lemma search_on_empty_set_witness :
  run_script (env_with_rg []) false (Rg (Some "x"%string) (Some ""%string)) (initial_state no_files [])
    = (inr tt, emit (Exec "rg" (rg_args (Some "x"%string) "" None)) (initial_state no_files [])).
Proof.
  exact (proj1 (search_on_empty_set (env_with_rg []) false (initial_state no_files [])
                  (Some "x"%string) "" [] eq_refl eq_refl)).
Defined.

(* ------------------------------------------------------------------ *)
(** ** The report and substitution stages *)

(** [print-files] prints each file path of the region set exactly once
    (and nothing else), in an order that follows the region set, and
    changes nothing else. *)
Theorem print_files_once (env : Env) (isFirst : bool) (st : St) :
  exists ds,
    run_script env isFirst PrintFiles st =
      (inr tt, mkSt (regions st) (files st) (stdin st) (trace st ++ map Stdout ds)) /\
    NoDup ds /\
    (forall x, In x ds <-> exists r, In r (regions st) /\ filepath r = x) /\
    ds `sublist_of` map filepath (regions st).
Proof.
  exists (set_dedup ∅ (map filepath (regions st))). split_and!.
  - unfold run_script. cbv [M_bind M_get]. apply M_iter_emit.
  - apply set_dedup_nodup.
  - intros x. rewrite set_dedup_in, in_map_iff. split.
    + intros [(r & <- & Hr) _]. eauto.
    + intros (r & Hr & <-). split; [eauto | set_solver].
  - apply set_dedup_sublist.
Qed.

(** The report of a region from line [a] to line [b] of a file with lines
    [ls] is the lines numbered [max(a, 1)] to [min(b, ls.length)], each as
    [filepath:number:line]; a region with a [NaN] bound prints nothing. *)
Theorem print_lines_range (fp : string) (a b : Z) (xs ls : list string) :
  print_lines (mkRegion fp (Num a) (Num b) xs) 1 ls =
    number_lines fp (Z.max a 1)
      (firstn (Z.to_nat (b - Z.max a 1 + 1)) (skipn (Z.to_nat (Z.max a 1 - 1)) ls)) /\
  (forall r, firstLineNumber r = NaN \/ lastLineNumber r = NaN -> print_lines r 1 ls = []).
Proof.
  split; [apply print_lines_window |]. intros r Hr. by apply print_lines_nan.
Qed.

(** When every file of the region set can be read, [print-regions]
    succeeds and prints, region after region in the order of the set, the
    lines of each region read from its file at that moment, and changes
    nothing else. *)
Theorem print_regions_stage (env : Env) (isFirst : bool) (st : St) :
  (forall r, In r (regions st) -> files st (filepath r) <> None) ->
  run_script env isFirst PrintRegions st =
    (inr tt, mkSt (regions st) (files st) (stdin st)
               (trace st ++ map Stdout (region_report (files st) (regions st)))).
Proof.
  intros H. unfold run_script. cbv [M_bind M_get]. by apply M_iter_print_ok.
Qed.

Lemma print_regions_stage_witness :
  run_script (env_with_rg []) false PrintRegions
    (mkSt [mkRegion "x.txt" (Num 1) (Num 1) ["hello"]] one_line_fs [] [])%string =
  (inr tt, mkSt [mkRegion "x.txt" (Num 1) (Num 1) ["hello"]] one_line_fs []
             [Stdout "x.txt:1:hello"])%string.
Proof.
  rewrite (print_regions_stage (env_with_rg []) false
             (mkSt [mkRegion "x.txt" (Num 1) (Num 1) ["hello"]] one_line_fs [] [])%string).
  - reflexivity.
  - intros r [<- | []]. discriminate.
Defined.

(** When the file of some region cannot be read, [print-regions] fails
    with a read error at that region, after printing the lines of the
    regions before it. *)
Theorem print_regions_missing_file (env : Env) (isFirst : bool) (st : St)
    (pre post : list RgRegion) (r : RgRegion) :
  regions st = pre ++ r :: post ->
  (forall r', In r' pre -> files st (filepath r') <> None) ->
  files st (filepath r) = None ->
  run_script env isFirst PrintRegions st =
    (inl ReadFailure, mkSt (regions st) (files st) (stdin st)
                        (trace st ++ map Stdout (region_report (files st) pre))).
Proof.
  intros Hr Hpre Hmiss. unfold run_script. cbv [M_bind M_get].
  rewrite Hr at 1. by apply M_iter_print_fail.
Qed.

Lemma print_regions_missing_file_witness :
  run_script (env_with_rg []) false PrintRegions
    (mkSt [mkRegion "x.txt" (Num 1) (Num 1) ["hello"]; mkRegion "y.txt" (Num 1) (Num 1) ["z"]]
          one_line_fs [] [])%string =
  (inl ReadFailure,
   mkSt [mkRegion "x.txt" (Num 1) (Num 1) ["hello"]; mkRegion "y.txt" (Num 1) (Num 1) ["z"]]
        one_line_fs [] [Stdout "x.txt:1:hello"])%string.
Proof.
  rewrite (print_regions_missing_file (env_with_rg []) false
    (mkSt [mkRegion "x.txt" (Num 1) (Num 1) ["hello"]; mkRegion "y.txt" (Num 1) (Num 1) ["z"]]
          one_line_fs [] [])%string
    [mkRegion "x.txt" (Num 1) (Num 1) ["hello"]]%string []
    (mkRegion "y.txt" (Num 1) (Num 1) ["z"])%string eq_refl).
  - reflexivity.
  - intros r [<- | []]. discriminate.
  - reflexivity.
Defined.

(** When [sed] succeeds, a substitution stage starts one [sed] process per
    region, in the order of the region set, each with that region's
    arguments, and leaves the region set as it is. *)
Theorem sed_stage_per_region (env : Env) (isFirst : bool) (st : St) (sep : ascii)
    (p rep fl : string) :
  (forall args fs, sed_process env args fs <> None) ->
  fst (run_script env isFirst (Sed sep p rep fl) st) = inr tt /\
  regions (snd (run_script env isFirst (Sed sep p rep fl) st)) = regions st /\
  trace (snd (run_script env isFirst (Sed sep p rep fl) st)) =
    trace st ++ map (sed_exec sep p rep fl) (regions st).
Proof.
  intros H. unfold run_script. cbv [M_bind M_get]. by apply M_iter_sed_ok.
Qed.

Lemma sed_stage_per_region_witness :
  trace (snd (run_script (env_with_rg []) false (Sed "/" "a" "b" "g") sample_state)) =
    map (sed_exec "/" "a" "b" "g") (regions sample_state).
Proof.
  rewrite (proj2 (proj2 (sed_stage_per_region (env_with_rg []) false sample_state "/" "a" "b" "g"
                           ltac:(intros args fs; discriminate)))).
  reflexivity.
Defined.

(* ------------------------------------------------------------------ *)
(** ** Grouping by file and the whole run *)

(** The map built from the regions of a search gives, for each file, the
    regions of that file in their order, and has no entry for a file with
    no region. *)
Theorem group_by_file_lookup (rs : list RgRegion) (f : string) :
  regions_of (group_by_file rs) f = List.filter (fun n => String.eqb (filepath n) f) rs /\
  (group_by_file rs !! f = None <-> forall r, In r rs -> filepath r <> f).
Proof.
  split; [apply regions_of_group_by_file |].
  unfold group_by_file. rewrite group_by_file_acc_none, lookup_empty. tauto.
Qed.

(** A run whose first stage is neither a search nor [files-from-stdin]
    keeps the region set empty to the end and writes nothing to standard
    output. *)
Theorem unseeded_run_prints_nothing (env : Env) (fs : FS) (input ss : list string)
    (scripts : list Script) :
  parse_all ss = inr scripts ->
  (forall s, hd_error scripts = Some s -> seeds s = false) ->
  regions (snd (main env fs input ss)) = [] /\ no_stdout (trace (snd (main env fs input ss))).
Proof.
  intros Hp Hs. unfold main. rewrite Hp.
  apply run_from_keeps_empty; [| split; [done | constructor]].
  intros _ s Hhd. destruct (hd_add_default_print scripts s Hhd) as [H | [_ ->]];
    [by apply Hs | done].
Qed.

Lemma unseeded_run_prints_nothing_witness :
  regions (snd (main (env_with_rg ["a.txt:1:x"]) no_files []
                  ["!rg/x/"; "print-regions"]%string)) = [] /\
  no_stdout (trace (snd (main (env_with_rg ["a.txt:1:x"]) no_files []
                           ["!rg/x/"; "print-regions"]%string))).
Proof.
  apply (unseeded_run_prints_nothing _ _ _ _ [RgNegated (Some "x"%string) ""; PrintRegions]).
  - reflexivity.
  - intros s [= <-]. reflexivity.
Defined.

(** A run of the single script [rg<c>pattern<c>flags] (separator [c] not
    in [rg], the pattern or the flags) starts [rg] once,
    without file arguments, turns its non-blank output into regions and
    reports them with the default [print-regions], when every file of the
    regions can be read. *)
Theorem single_search_run (env : Env) (fs : FS) (input : list string) (c : ascii)
    (p f : string) (out : list string) :
  includes_char c "rg" = false -> includes_char c p = false -> includes_char c f = false ->
  rg_process env (rg_args (Some p) f None) = Some out ->
  (forall r, In r (rgLinesToRegions (nonblank out)) -> fs (filepath r) <> None) ->
  main env fs input [("rg" ++ String c (p ++ String c f))%string] =
    (inr tt, mkSt (rgLinesToRegions (nonblank out)) fs input
               (Exec "rg" (rg_args (Some p) f None) ::
                map Stdout (region_report fs (rgLinesToRegions (nonblank out))))).
Proof.
  intros Hc Hp Hf Hout Hread.
  assert (Hparse : parseScript ("rg" ++ String c (p ++ String c f))
                   = Some (Rg (Some p) (Some f))).
  { exact (parse_rg_concat c [p; f] Hc ltac:(discriminate)
             ltac:(repeat constructor; assumption)). }
  unfold main. cbn [parse_all]. rewrite Hparse.
  cbv [add_default_print existsb is_print orb app run_from].
  cbv [M_bind run_script M_modify executeRg M_ret]. rewrite Hout.
  simpl.
  rewrite M_iter_print_ok by exact Hread.
  reflexivity.
Qed.

Lemma single_search_run_witness :
  main (env_with_rg ["x.txt:1:hello"]) one_line_fs [] ["rg/hel/"]%string =
    (inr tt, mkSt [mkRegion "x.txt" (Num 1) (Num 1) ["hello"]] one_line_fs []
               [Exec "rg" (rg_args (Some "hel") "" None); Stdout "x.txt:1:hello"])%string.
Proof.
  change ["rg/hel/"]%string with [("rg" ++ String "/" ("hel" ++ String "/" ""))%string].
  rewrite (single_search_run (env_with_rg ["x.txt:1:hello"]%string) one_line_fs [] "/"
             "hel" "" ["x.txt:1:hello"]%string eq_refl eq_refl eq_refl eq_refl).
  - reflexivity.
  - intros r Hr. vm_compute in Hr. destruct Hr as [<- | []]. discriminate.
Defined.

(** With no script at all, the run succeeds and does nothing: only the
    default [print-regions] runs, on the empty region set. *)
Theorem main_no_scripts (env : Env) (fs : FS) (input : list string) :
  main env fs input [] = (inr tt, initial_state fs input).
Proof. reflexivity. Qed.
